(** * angr/functionmanager.py: the function map built during CFG recovery

    A shallow embedding of [Function] and [FunctionManager] and of the part
    of [networkx.DiGraph] they use.  Python dictionaries are finite maps,
    Python sets are finite sets, Python lists are lists; addresses and
    offsets are Python integers, hence [Z].  [None] is [option]'s [None]. *)

From stdpp Require Import base gmap sets list strings.
From Stdlib Require Import ZArith.

Local Open Scope Z_scope.

(** ** networkx.DiGraph *)

(** The two dictionaries of a directed graph that the program reads:
    [node] (node -> attributes) and [adj] (node -> successor -> edge
    attributes).  The predecessor dictionary mirrors [adj] and is never read
    by this program.  An attribute dictionary maps keyword names to
    values; the only keyword the source passes is [type]. *)
Module DiGraph.

Record t : Type := mk {
  node : gmap Z (gmap string string);
  adj : gmap Z (gmap Z (gmap string string))
}.

(** [networkx.DiGraph()] *)
Definition empty : t := {| node := ∅; adj := ∅ |}.

(** [add_node(n)] with no attributes: a node that has no adjacency entry
    gets an empty one and an empty attribute dictionary; updating a known
    node with no attributes leaves it as it is. *)
Definition add_node (n : Z) (g : t) : t :=
  match adj g !! n with
  | None => {| node := <[n := ∅]> (node g); adj := <[n := ∅]> (adj g) |}
  | Some _ => g
  end.

(** [add_edge(u, v, **attr)]: an endpoint that has no adjacency entry is
    added the way [add_node] adds it; the attribute dictionary of the
    edge, the old one when the edge exists, is updated with [attr]. *)
Definition add_edge (u v : Z) (attr : gmap string string) (g : t) : t :=
  let g1 := add_node v (add_node u g) in
  let nbrs := default ∅ (adj g1 !! u) in
  let datadict := attr ∪ default ∅ (nbrs !! v) in
  {| node := node g1; adj := <[u := <[v := datadict]> nbrs]> (adj g1) |}.

(** [nodes()] *)
Definition nodes (g : t) : gset Z := dom (node g).

(** [edges()]: for every node, in turn, its successors. *)
Definition edges (g : t) : list (Z * Z) :=
  '(u, nbrs) ← map_to_list (adj g); (λ vd, (u, vd.1)) <$> map_to_list nbrs.

(** [has_edge(u, v)] *)
Definition has_edge (u v : Z) (g : t) : bool :=
  match adj g !! u with
  | Some nbrs => bool_decide (is_Some (nbrs !! v))
  | None => false
  end.

(** [g[u][v]]: the attribute dictionary of an edge. *)
Definition edge_data (u v : Z) (g : t) : option (gmap string string) :=
  adj g !! u ≫= λ nbrs, nbrs !! v.

End DiGraph.

(** ** class Function *)

Module Function.

Record t : Type := mk {
  _transition_graph : DiGraph.t;
  _ret_sites : gset Z;
  _call_sites : gmap Z (Z * Z);
  _retn_addr_to_call_site : gmap Z Z;
  _addr : Z;
  name : option string;
  _argument_registers : list Z;
  _argument_stack_variables : list Z;
  _bp_on_stack : bool;
  _retaddr_on_stack : bool;
  _sp_difference : Z
}.

(** [Function(addr, name=None)] *)
Definition __init__ (addr : Z) (name : option string) : t :=
  {| _transition_graph := DiGraph.empty;
     _ret_sites := ∅;
     _call_sites := ∅;
     _retn_addr_to_call_site := ∅;
     _addr := addr;
     name := name;
     _argument_registers := [];
     _argument_stack_variables := [];
     _bp_on_stack := false;
     _retaddr_on_stack := false;
     _sp_difference := 0 |}.

(** Assignments to one attribute of [self]. *)
Definition set_transition_graph (g : DiGraph.t) (self : t) : t :=
  mk g (_ret_sites self) (_call_sites self) (_retn_addr_to_call_site self)
     (_addr self) (name self) (_argument_registers self)
     (_argument_stack_variables self) (_bp_on_stack self)
     (_retaddr_on_stack self) (_sp_difference self).

Definition set_ret_sites (s : gset Z) (self : t) : t :=
  mk (_transition_graph self) s (_call_sites self)
     (_retn_addr_to_call_site self) (_addr self) (name self)
     (_argument_registers self) (_argument_stack_variables self)
     (_bp_on_stack self) (_retaddr_on_stack self) (_sp_difference self).

Definition set_call_sites (c : gmap Z (Z * Z)) (r : gmap Z Z) (self : t) : t :=
  mk (_transition_graph self) (_ret_sites self) c r (_addr self) (name self)
     (_argument_registers self) (_argument_stack_variables self)
     (_bp_on_stack self) (_retaddr_on_stack self) (_sp_difference self).

Definition set_argument_registers (l : list Z) (self : t) : t :=
  mk (_transition_graph self) (_ret_sites self) (_call_sites self)
     (_retn_addr_to_call_site self) (_addr self) (name self) l
     (_argument_stack_variables self) (_bp_on_stack self)
     (_retaddr_on_stack self) (_sp_difference self).

Definition set_argument_stack_variables (l : list Z) (self : t) : t :=
  mk (_transition_graph self) (_ret_sites self) (_call_sites self)
     (_retn_addr_to_call_site self) (_addr self) (name self)
     (_argument_registers self) l (_bp_on_stack self)
     (_retaddr_on_stack self) (_sp_difference self).

Definition startpoint (self : t) : Z := _addr self.

Definition endpoints (self : t) : list Z := elements (_ret_sites self).

Definition transit_to (from_addr to_addr : Z) (self : t) : t :=
  set_transition_graph
    (DiGraph.add_edge from_addr to_addr {[ "type" := "transition" ]}
       (_transition_graph self)) self.

Definition return_from_call (first_block_addr to_addr : Z) (self : t) : t :=
  set_transition_graph
    (DiGraph.add_edge first_block_addr to_addr
       {[ "type" := "return_from_call" ]} (_transition_graph self)) self.

Definition add_block (addr : Z) (self : t) : t :=
  set_transition_graph (DiGraph.add_node addr (_transition_graph self)) self.

Definition add_return_site (return_site_addr : Z) (self : t) : t :=
  set_ret_sites ({[ return_site_addr ]} ∪ _ret_sites self) self.

Definition add_call_site (call_site_addr call_target_addr retn_addr : Z)
    (self : t) : t :=
  set_call_sites
    (<[call_site_addr := (call_target_addr, retn_addr)]> (_call_sites self))
    (<[retn_addr := call_site_addr]> (_retn_addr_to_call_site self)) self.

Definition get_call_sites (self : t) : gset Z := dom (_call_sites self).

Definition get_call_target (callsite_addr : Z) (self : t) : option Z :=
  match _call_sites self !! callsite_addr with
  | Some site => Some site.1
  | None => None
  end.

Definition get_call_return (callsite_addr : Z) (self : t) : option Z :=
  match _call_sites self !! callsite_addr with
  | Some site => Some site.2
  | None => None
  end.

Definition basic_blocks (self : t) : gset Z :=
  DiGraph.nodes (_transition_graph self).

Definition transition_graph (self : t) : DiGraph.t := _transition_graph self.

Definition add_argument_register (reg_offset : Z) (self : t) : t :=
  if decide (reg_offset ∈ _argument_registers self) then self
  else set_argument_registers (_argument_registers self ++ [reg_offset]) self.

Definition add_argument_stack_variable (stack_var_offset : Z) (self : t) : t :=
  if decide (stack_var_offset ∈ _argument_stack_variables self) then self
  else set_argument_stack_variables
         (_argument_stack_variables self ++ [stack_var_offset]) self.

Definition arguments (self : t) : list Z * list Z :=
  (_argument_registers self, _argument_stack_variables self).

Definition bp_on_stack (self : t) : bool := _bp_on_stack self.

Definition set_bp_on_stack (value : bool) (self : t) : t :=
  mk (_transition_graph self) (_ret_sites self) (_call_sites self)
     (_retn_addr_to_call_site self) (_addr self) (name self)
     (_argument_registers self) (_argument_stack_variables self) value
     (_retaddr_on_stack self) (_sp_difference self).

Definition retaddr_on_stack (self : t) : bool := _retaddr_on_stack self.

Definition set_retaddr_on_stack (value : bool) (self : t) : t :=
  mk (_transition_graph self) (_ret_sites self) (_call_sites self)
     (_retn_addr_to_call_site self) (_addr self) (name self)
     (_argument_registers self) (_argument_stack_variables self)
     (_bp_on_stack self) value (_sp_difference self).

Definition sp_difference (self : t) : Z := _sp_difference self.

Definition set_sp_difference (value : Z) (self : t) : t :=
  mk (_transition_graph self) (_ret_sites self) (_call_sites self)
     (_retn_addr_to_call_site self) (_addr self) (name self)
     (_argument_registers self) (_argument_stack_variables self)
     (_bp_on_stack self) (_retaddr_on_stack self) value.

(** [self.name = value]: the label is a public attribute. *)
Definition set_name (value : option string) (self : t) : t :=
  mk (_transition_graph self) (_ret_sites self) (_call_sites self)
     (_retn_addr_to_call_site self) (_addr self) value
     (_argument_registers self) (_argument_stack_variables self)
     (_bp_on_stack self) (_retaddr_on_stack self) (_sp_difference self).

(** [len(self._ret_sites) > 0] *)
Definition has_return (self : t) : bool :=
  bool_decide (0 < size (_ret_sites self))%nat.

(** The calls a client can make on a record that change it. *)
Inductive op : Type :=
| TransitTo (from_addr to_addr : Z)
| ReturnFromCall (first_block_addr to_addr : Z)
| AddBlock (addr : Z)
| AddReturnSite (return_site_addr : Z)
| AddCallSite (call_site_addr call_target_addr retn_addr : Z)
| AddArgumentRegister (reg_offset : Z)
| AddArgumentStackVariable (stack_var_offset : Z)
| SetBpOnStack (value : bool)
| SetRetaddrOnStack (value : bool)
| SetSpDifference (value : Z)
| SetName (value : option string).

Definition apply (o : op) (self : t) : t :=
  match o with
  | TransitTo a b => transit_to a b self
  | ReturnFromCall a b => return_from_call a b self
  | AddBlock a => add_block a self
  | AddReturnSite a => add_return_site a self
  | AddCallSite a b r => add_call_site a b r self
  | AddArgumentRegister x => add_argument_register x self
  | AddArgumentStackVariable x => add_argument_stack_variable x self
  | SetBpOnStack v => set_bp_on_stack v self
  | SetRetaddrOnStack v => set_retaddr_on_stack v self
  | SetSpDifference v => set_sp_difference v self
  | SetName v => set_name v self
  end.

(** The calls of a list, first to last. *)
Definition run (os : list op) (self : t) : t :=
  foldl (λ f o, apply o f) self os.

End Function.

(** ** class FunctionManager *)

Module FunctionManager.

(** [_project] is stored by the constructor and never read. *)
Record t : Type := mk {
  _function_map : gmap Z Function.t;
  interfunction_graph : DiGraph.t
}.

(** [FunctionManager(project, binary)] *)
Definition __init__ : t :=
  {| _function_map := ∅; interfunction_graph := DiGraph.empty |}.

(** A method runs on the manager, changes it, and answers; subscripting
    the function map with an address it does not hold raises [KeyError],
    which is [None] here. *)
Definition M (A : Type) : Type := t → option (A * t).

Definition ret {A} (a : A) : M A := λ self, Some (a, self).

Definition bind {A B} (c : M A) (k : A → M B) : M B :=
  λ self, match c self with
          | Some (a, self') => k a self'
          | None => None
          end.

Notation "c1 ;; c2" := (bind c1 (λ _, c2))
  (at level 100, c2 at level 200, right associativity).

(** [self._function_map[function_addr] = fn] *)
Definition store (function_addr : Z) (fn : Function.t) : M unit :=
  λ self, Some (tt, {| _function_map := <[function_addr := fn]> (_function_map self);
                       interfunction_graph := interfunction_graph self |}).

(** [self._function_map[function_addr].method(...)]: the record found
    under the address is changed in place. *)
Definition on_function (function_addr : Z) (method : Function.t → Function.t)
    : M unit :=
  λ self, match _function_map self !! function_addr with
          | Some fn => store function_addr (method fn) self
          | None => None
          end.

(** [self.interfunction_graph.add_edge(u, v)] *)
Definition add_call_edge (u v : Z) : M unit :=
  λ self, Some (tt, {| _function_map := _function_map self;
                       interfunction_graph :=
                         DiGraph.add_edge u v ∅ (interfunction_graph self) |}).

Definition _create_function_if_not_exist (function_addr : Z) : M unit :=
  λ self, match _function_map self !! function_addr with
          | None =>
              (store function_addr (Function.__init__ function_addr None) ;;
               on_function function_addr (Function.add_block function_addr)) self
          | Some _ => ret tt self
          end.

Definition call_to (function_addr from_addr to_addr retn_addr : Z) : M unit :=
  _create_function_if_not_exist function_addr ;;
  on_function function_addr (Function.add_call_site from_addr to_addr retn_addr) ;;
  add_call_edge function_addr to_addr.

(** [to_addr] defaults to [None]. *)
Definition return_from (function_addr from_addr : Z) (to_addr : option Z)
    : M unit :=
  _create_function_if_not_exist function_addr ;;
  on_function function_addr (Function.add_return_site from_addr).

Definition transit_to (function_addr from_addr to_addr : Z) : M unit :=
  _create_function_if_not_exist function_addr ;;
  on_function function_addr (Function.transit_to from_addr to_addr).

Definition return_from_call (function_addr first_block_addr to_addr : Z)
    : M unit :=
  _create_function_if_not_exist function_addr ;;
  on_function function_addr (Function.return_from_call first_block_addr to_addr).

Definition functions : M (gmap Z Function.t) :=
  λ self, Some (_function_map self, self).

(** [function(addr)]: the record, or [None]. *)
Definition function (addr : Z) : M (option Function.t) :=
  λ self, match _function_map self !! addr with
          | Some fn => ret (Some fn) self
          | None => ret None self
          end.

(** The four events of the recovery driver. *)
Inductive event : Type :=
| CallTo (function_addr from_addr to_addr retn_addr : Z)
| ReturnFrom (function_addr from_addr : Z) (to_addr : option Z)
| TransitTo (function_addr from_addr to_addr : Z)
| ReturnFromCall (function_addr first_block_addr to_addr : Z).

(** The function an event names. *)
Definition function_addr_of (e : event) : Z :=
  match e with
  | CallTo f _ _ _ | ReturnFrom f _ _ | TransitTo f _ _ | ReturnFromCall f _ _ => f
  end.

Definition emit (e : event) : M unit :=
  match e with
  | CallTo f a b r => call_to f a b r
  | ReturnFrom f a t => return_from f a t
  | TransitTo f a b => transit_to f a b
  | ReturnFromCall f a b => return_from_call f a b
  end.

(** The events of a list, first to last. *)
Fixpoint emit_all (es : list event) : M unit :=
  match es with
  | [] => ret tt
  | e :: es' => emit e ;; emit_all es'
  end.

End FunctionManager.

(** ** Vocabulary of the properties *)

(** What [_create_function_if_not_exist] leaves under an address: the record
    that was there, or a new one that has its own address as a block. *)
Definition vivified (function_addr : Z) (self : FunctionManager.t) : Function.t :=
  default (Function.add_block function_addr (Function.__init__ function_addr None))
          (FunctionManager._function_map self !! function_addr).

(** The method of the record that an event forwards to. *)
Definition method_of (e : FunctionManager.event) : Function.t → Function.t :=
  match e with
  | FunctionManager.CallTo _ a b r => Function.add_call_site a b r
  | FunctionManager.ReturnFrom _ a _ => Function.add_return_site a
  | FunctionManager.TransitTo _ a b => Function.transit_to a b
  | FunctionManager.ReturnFromCall _ a b => Function.return_from_call a b
  end.

(** Every key [r] of the reverse index leads to a call site whose recorded
    return address is [r]. *)
Definition reverse_index_consistent (fn : Function.t) : Prop :=
  ∀ r a, Function._retn_addr_to_call_site fn !! r = Some a →
         ∃ t, Function._call_sites fn !! a = Some (t, r).

(** Every key of the reverse index leads to a recorded call site. *)
Definition reverse_index_defined (fn : Function.t) : Prop :=
  ∀ r a, Function._retn_addr_to_call_site fn !! r = Some a →
         is_Some (Function._call_sites fn !! a).

(** Two calls agree when, if both register the same call site, they give it
    the same return address. *)
Definition same_site_same_retn (o o' : Function.op) : Prop :=
  match o, o' with
  | Function.AddCallSite a _ r, Function.AddCallSite a' _ r' => a = a' → r = r'
  | _, _ => True
  end.

#[global] Instance same_site_same_retn_dec o o' :
  Decision (same_site_same_retn o o').
Proof. destruct o, o'; simpl; apply _. Defined.

(** No call site is registered with two return addresses. *)
Definition one_retn_per_site (os : list Function.op) : Prop :=
  Forall (λ o, Forall (same_site_same_retn o) os) os.

(** How many items of a dictionary have the key [k]. *)
Definition count_key {V} (k : Z) (m : gmap Z V) : nat :=
  length (filter (λ kv, kv.1 = k) (map_to_list m)).

(** How many times the edge list of a graph names [u -> v]. *)
Definition count_edge (u v : Z) (g : DiGraph.t) : nat :=
  length (filter (λ e, e = (u, v)) (DiGraph.edges g)).

(** A graph is closed when its node dictionary and its adjacency dictionary
    have the same keys and every successor is one of them. *)
Definition graph_closed (g : DiGraph.t) : Prop :=
  dom (DiGraph.node g) = dom (DiGraph.adj g)
  ∧ ∀ u v, DiGraph.has_edge u v g = true → v ∈ dom (DiGraph.adj g).

(** The last [add_call_site] for the call site [a] among the calls [os]. *)
Definition last_call_site (a : Z) (os : list Function.op) : option (Z * Z) :=
  foldl (λ acc o,
           match o with
           | Function.AddCallSite a' t r =>
               if decide (a' = a) then Some (t, r) else acc
           | _ => acc
           end) None os.

(** The [type] of the last registration of the edge [u -> v] among the
    calls [os]. *)
Definition last_edge_type (u v : Z) (os : list Function.op) : option string :=
  foldl (λ acc o,
           match o with
           | Function.TransitTo a b =>
               if decide (a = u ∧ b = v) then Some "transition" else acc
           | Function.ReturnFromCall a b =>
               if decide (a = u ∧ b = v) then Some "return_from_call" else acc
           | _ => acc
           end) None os.

(** The addresses a call hands to the transition graph. *)
Definition op_blocks (o : Function.op) : list Z :=
  match o with
  | Function.TransitTo a b | Function.ReturnFromCall a b => [a; b]
  | Function.AddBlock a => [a]
  | _ => []
  end.

(** The register offsets, and the stack offsets, that the calls [os]
    register, in order. *)
Definition reg_offsets (os : list Function.op) : list Z :=
  os ≫= λ o, match o with Function.AddArgumentRegister x => [x] | _ => [] end.

Definition stack_offsets (os : list Function.op) : list Z :=
  os ≫= λ o, match o with Function.AddArgumentStackVariable x => [x] | _ => [] end.

(** A list without the repeats of an element after its first occurrence. *)
Definition first_occurrences (l : list Z) : list Z :=
  reverse (remove_dups (reverse l)).

(** The call on the record that an event stands for. *)
Definition op_of (e : FunctionManager.event) : Function.op :=
  match e with
  | FunctionManager.CallTo _ a b r => Function.AddCallSite a b r
  | FunctionManager.ReturnFrom _ a _ => Function.AddReturnSite a
  | FunctionManager.TransitTo _ a b => Function.TransitTo a b
  | FunctionManager.ReturnFromCall _ a b => Function.ReturnFromCall a b
  end.

(** The calls that the events naming the function [f] stand for, in order. *)
Definition routed (f : Z) (es : list FunctionManager.event) : list Function.op :=
  op_of <$> filter (λ e, FunctionManager.function_addr_of e = f) es.

(** The pairs (function, target) of the [call_to] events, in order. *)
Definition call_edges (es : list FunctionManager.event) : list (Z * Z) :=
  es ≫= λ e, match e with
              | FunctionManager.CallTo f _ b _ => [(f, b)]
              | _ => []
              end.

(** The call graph after an event. *)
Definition call_graph_after (e : FunctionManager.event) (g : DiGraph.t)
    : DiGraph.t :=
  match e with
  | FunctionManager.CallTo f _ b _ => DiGraph.add_edge f b ∅ g
  | _ => g
  end.

(** The record [fn'] holds all that the record [fn] holds: the same
    address, the blocks, edges, return sites and call sites of [fn], and
    argument lists that start with those of [fn]. *)
Definition record_extends (fn fn' : Function.t) : Prop :=
  Function.startpoint fn' = Function.startpoint fn
  ∧ Function.basic_blocks fn ⊆ Function.basic_blocks fn'
  ∧ (∀ u v, DiGraph.has_edge u v (Function.transition_graph fn) = true →
            DiGraph.has_edge u v (Function.transition_graph fn') = true)
  ∧ Function._ret_sites fn ⊆ Function._ret_sites fn'
  ∧ Function.get_call_sites fn ⊆ Function.get_call_sites fn'
  ∧ Function._argument_registers fn `prefix_of` Function._argument_registers fn'
  ∧ Function._argument_stack_variables fn
    `prefix_of` Function._argument_stack_variables fn'.

(** The call site of the last [add_call_site] that gave the return
    address [r], among the calls [os]. *)
Definition last_site_returning (r : Z) (os : list Function.op) : option Z :=
  foldl (λ acc o,
           match o with
           | Function.AddCallSite a _ r' =>
               if decide (r' = r) then Some a else acc
           | _ => acc
           end) None os.

(** * Properties *)

(** ** The graph container *)

Section digraph.
Implicit Types (g : DiGraph.t) (u v n : Z) (attr : gmap string string).

Lemma add_node_known n g :
  is_Some (DiGraph.adj g !! n) → DiGraph.add_node n g = g.
Proof. intros [nbrs Hn]. unfold DiGraph.add_node. by rewrite Hn. Qed.

Lemma add_node_adj_self n g :
  is_Some (DiGraph.adj (DiGraph.add_node n g) !! n).
Proof.
  unfold DiGraph.add_node.
  destruct (DiGraph.adj g !! n) eqn:Hn; simpl.
  - by rewrite Hn.
  - by rewrite lookup_insert_eq.
Qed.

Lemma add_node_adj_mono n m g :
  is_Some (DiGraph.adj g !! m) →
  is_Some (DiGraph.adj (DiGraph.add_node n g) !! m).
Proof.
  intros Hm. unfold DiGraph.add_node.
  destruct (DiGraph.adj g !! n) eqn:Hn; simpl; [done|].
  destruct (decide (n = m)) as [->|Hne].
  - by rewrite lookup_insert_eq.
  - by rewrite lookup_insert_ne.
Qed.

Lemma add_node_nodes_mono n g :
  DiGraph.nodes g ⊆ DiGraph.nodes (DiGraph.add_node n g).
Proof.
  unfold DiGraph.nodes, DiGraph.add_node.
  destruct (DiGraph.adj g !! n); simpl; [done|].
  apply dom_insert_subseteq.
Qed.

Lemma add_edge_nodes_mono u v attr g :
  DiGraph.nodes g ⊆ DiGraph.nodes (DiGraph.add_edge u v attr g).
Proof.
  unfold DiGraph.add_edge, DiGraph.nodes at 2; simpl.
  etrans; [apply (add_node_nodes_mono u)|apply (add_node_nodes_mono v)].
Qed.

Lemma add_node_adj_lookup n m g :
  DiGraph.adj (DiGraph.add_node n g) !! m
  = match DiGraph.adj g !! m with
    | Some nbrs => Some nbrs
    | None => if decide (n = m) then Some ∅ else None
    end.
Proof.
  unfold DiGraph.add_node.
  destruct (DiGraph.adj g !! n) as [nn|] eqn:Hn; simpl.
  - destruct (DiGraph.adj g !! m) eqn:Hm; [done|].
    case_decide; [congruence|done].
  - case_decide as Hnm.
    + subst m. by rewrite lookup_insert_eq, Hn.
    + rewrite lookup_insert_ne by done. by destruct (DiGraph.adj g !! m).
Qed.

Lemma add_node_nbrs n m g :
  default ∅ (DiGraph.adj (DiGraph.add_node n g) !! m)
  = default ∅ (DiGraph.adj g !! m).
Proof.
  rewrite add_node_adj_lookup.
  destruct (DiGraph.adj g !! m); [done|]. by case_decide.
Qed.

Lemma add_edge_adj u v attr g :
  ∃ nbrs, DiGraph.adj (DiGraph.add_edge u v attr g) !! u = Some nbrs
          ∧ nbrs !! v = Some (attr ∪ default ∅ (DiGraph.edge_data u v g)).
Proof.
  unfold DiGraph.add_edge; simpl. eexists. rewrite lookup_insert_eq.
  split; [done|]. rewrite lookup_insert_eq. do 3 f_equal.
  rewrite !add_node_nbrs. unfold DiGraph.edge_data.
  by destruct (DiGraph.adj g !! u).
Qed.

Lemma add_edge_has_edge u v attr g :
  DiGraph.has_edge u v (DiGraph.add_edge u v attr g) = true.
Proof.
  destruct (add_edge_adj u v attr g) as (nbrs & Hu & Hv).
  unfold DiGraph.has_edge. rewrite Hu, Hv. by apply bool_decide_eq_true_2.
Qed.

(** Adding an edge a second time with the same attributes changes nothing. *)
Lemma add_edge_idemp u v attr g :
  DiGraph.add_edge u v attr (DiGraph.add_edge u v attr g)
  = DiGraph.add_edge u v attr g.
Proof.
  unfold DiGraph.add_edge at 1.
  set (g' := DiGraph.add_edge u v attr g).
  assert (Hu : is_Some (DiGraph.adj g' !! u)).
  { destruct (add_edge_adj u v attr g) as (nbrs & Hu & _).
    unfold g'. by rewrite Hu. }
  assert (Hv : is_Some (DiGraph.adj g' !! v)).
  { subst g'. unfold DiGraph.add_edge; simpl.
    destruct (decide (u = v)) as [->|Hne]; [by rewrite lookup_insert_eq|].
    rewrite lookup_insert_ne by done. apply add_node_adj_self. }
  rewrite (add_node_known u g') by done.
  rewrite (add_node_known v g') by done.
  destruct (add_edge_adj u v attr g) as (nbrs & Hnb & Hd).
  fold g' in Hnb. rewrite Hnb; simpl. rewrite Hd; simpl.
  rewrite (assoc_L (∪)), (idemp_L (∪) attr).
  rewrite (insert_id nbrs v) by done.
  rewrite (insert_id (DiGraph.adj g') u) by done.
  reflexivity.
Qed.

(** The edge list names an edge exactly when the adjacency has it ... *)
Lemma elem_of_edges u v g :
  (u, v) ∈ DiGraph.edges g ↔ DiGraph.has_edge u v g = true.
Proof.
  unfold DiGraph.edges, DiGraph.has_edge. rewrite list_elem_of_bind. split.
  - intros ([u' nbrs] & Hin & Hu).
    apply list_elem_of_fmap in Hin as ([v' d] & Heq & Hv); simplify_eq/=.
    apply elem_of_map_to_list in Hu, Hv. rewrite Hu.
    apply bool_decide_eq_true_2. by rewrite Hv.
  - destruct (DiGraph.adj g !! u) as [nbrs|] eqn:Hu; [|done].
    intros [d Hv]%bool_decide_eq_true_1.
    exists (u, nbrs). split.
    + apply list_elem_of_fmap. exists (v, d). split; [done|].
      by apply elem_of_map_to_list.
    + by apply elem_of_map_to_list.
Qed.

(** ... and names no edge twice. *)
Lemma NoDup_edges g : NoDup (DiGraph.edges g).
Proof.
  unfold DiGraph.edges. apply NoDup_bind.
  - intros [u1 n1] [u2 n2] e H1 H2 Hin1 Hin2.
    apply list_elem_of_fmap in Hin1 as ([v1 d1] & -> & _).
    apply list_elem_of_fmap in Hin2 as ([v2 d2] & Heq & _); simplify_eq/=.
    apply elem_of_map_to_list in H1, H2. congruence.
  - intros [u nbrs] _.
    apply (NoDup_fmap_2_strong _).
    + intros [v1 d1] [v2 d2] H1 H2 Heq; simplify_eq/=.
      apply elem_of_map_to_list in H1, H2. congruence.
    + apply NoDup_map_to_list.
  - apply NoDup_map_to_list.
Qed.

End digraph.

(** An element of a duplicate-free list is counted once. *)
Lemma NoDup_count_one {A} `{EqDecision A} (x : A) (l : list A) :
  NoDup l → x ∈ l → length (filter (λ y, y = x) l) = 1%nat.
Proof.
  induction 1 as [|y l Hy Hl IH]; [by intros ?%elem_of_nil|].
  intros [->|Hin]%elem_of_cons.
  - rewrite filter_cons_True by done. simpl. f_equal.
    apply length_zero_iff_nil, elem_of_nil_inv.
    intros z [-> Hz]%list_elem_of_filter. done.
  - rewrite filter_cons_False by (intros ->; done). auto.
Qed.

(** A dictionary holds one item per key. *)
Lemma count_key_Some {V} (m : gmap Z V) (k : Z) (x : V) :
  m !! k = Some x → count_key k m = 1%nat.
Proof.
  intros Hk. unfold count_key.
  assert (Hfst : length (filter (λ y, y = k) (map_to_list m).*1) = 1%nat).
  { apply NoDup_count_one; [apply NoDup_fst_map_to_list|].
    apply list_elem_of_fmap. exists (k, x). split; [done|].
    by apply elem_of_map_to_list. }
  rewrite <- Hfst. clear.
  induction (map_to_list m) as [|[k' x'] l IH]; [done|].
  rewrite fmap_cons. simpl fst.
  destruct (decide (k' = k)) as [->|Hne].
  - rewrite !filter_cons_True by done. simpl. by rewrite IH.
  - by rewrite !filter_cons_False by done.
Qed.

(** ** The registry *)

Section manager.
Import FunctionManager.
Implicit Types (self : FunctionManager.t) (fn : Function.t).

Lemma create_function_spec function_addr self :
  _create_function_if_not_exist function_addr self
  = Some (tt, {| _function_map :=
                   <[function_addr := vivified function_addr self]>
                     (_function_map self);
                 interfunction_graph := interfunction_graph self |}).
Proof.
  unfold _create_function_if_not_exist, vivified.
  destruct (_function_map self !! function_addr) as [fn|] eqn:Hf; simpl.
  - unfold ret. rewrite insert_id by done. by destruct self.
  - unfold bind, on_function; simpl.
    rewrite lookup_insert_eq. unfold store; simpl.
    by rewrite insert_insert_eq.
Qed.

(** Every mutator starts the same way: ensure the record, then call one of
    its methods. *)
Lemma ensure_then function_addr method self :
  (_create_function_if_not_exist function_addr ;;
   on_function function_addr method) self
  = Some (tt, {| _function_map :=
                   <[function_addr := method (vivified function_addr self)]>
                     (_function_map self);
                 interfunction_graph := interfunction_graph self |}).
Proof.
  unfold bind at 1. rewrite create_function_spec.
  unfold on_function; simpl.
  rewrite lookup_insert_eq. unfold store; simpl.
  by rewrite insert_insert_eq.
Qed.

Lemma call_to_spec f a b r self :
  call_to f a b r self
  = Some (tt, {| _function_map :=
                   <[f := Function.add_call_site a b r (vivified f self)]>
                     (_function_map self);
                 interfunction_graph :=
                   DiGraph.add_edge f b ∅ (interfunction_graph self) |}).
Proof.
  unfold call_to, bind. rewrite create_function_spec.
  unfold on_function; simpl.
  rewrite lookup_insert_eq. unfold store, add_call_edge; simpl.
  by rewrite insert_insert_eq.
Qed.

Lemma emit_function_map e self :
  ∃ self', emit e self = Some (tt, self')
    ∧ _function_map self'
      = <[function_addr_of e := method_of e (vivified (function_addr_of e) self)]>
          (_function_map self).
Proof.
  destruct e as [f a b r|f a t|f a b|f a b]; simpl.
  - rewrite call_to_spec. by eexists.
  - unfold return_from. rewrite ensure_then. by eexists.
  - unfold transit_to. rewrite ensure_then. by eexists.
  - unfold return_from_call. rewrite ensure_then. by eexists.
Qed.

Lemma count_edge_has_edge u v g :
  DiGraph.has_edge u v g = true → count_edge u v g = 1%nat.
Proof.
  intros Hedge. apply NoDup_count_one; [apply NoDup_edges|].
  by apply elem_of_edges.
Qed.

Lemma add_call_site_idemp a b r fn :
  Function.add_call_site a b r (Function.add_call_site a b r fn)
  = Function.add_call_site a b r fn.
Proof.
  unfold Function.add_call_site, Function.set_call_sites; simpl.
  by rewrite !insert_insert_eq.
Qed.

Lemma vivified_after f fn self g :
  vivified f {| _function_map := <[f := fn]> (_function_map self);
                interfunction_graph := g |} = fn.
Proof. unfold vivified; simpl. by rewrite lookup_insert_eq. Qed.

Lemma vivified_known f fn self :
  _function_map self !! f = Some fn → vivified f self = fn.
Proof. intros Hf. unfold vivified. by rewrite Hf. Qed.

Lemma vivified_fresh f self :
  _function_map self !! f = None →
  vivified f self = Function.add_block f (Function.__init__ f None).
Proof. intros Hf. unfold vivified. by rewrite Hf. Qed.

Lemma call_to_twice f a b r self :
  (call_to f a b r ;; call_to f a b r) self = call_to f a b r self.
Proof.
  unfold bind. rewrite call_to_spec. rewrite call_to_spec; simpl.
  rewrite vivified_after.
  by rewrite add_call_site_idemp, insert_insert_eq, add_edge_idemp.
Qed.

Lemma method_of_addr e fn :
  Function._addr (method_of e fn) = Function._addr fn.
Proof. by destruct e. Qed.

Lemma method_of_blocks e fn :
  Function.basic_blocks fn ⊆ Function.basic_blocks (method_of e fn).
Proof.
  destruct e; simpl; unfold Function.basic_blocks; simpl;
    first [done | apply add_edge_nodes_mono].
Qed.

Lemma fresh_function_block f :
  f ∈ Function.basic_blocks
        (Function.add_block f (Function.__init__ f None)).
Proof.
  unfold Function.basic_blocks, Function.add_block, DiGraph.nodes; simpl.
  unfold DiGraph.add_node; simpl. rewrite lookup_empty; simpl.
  rewrite dom_insert_L. set_solver.
Qed.

Lemma function_spec addr self :
  function addr self = Some (_function_map self !! addr, self).
Proof. unfold function, ret. by destruct (_function_map self !! addr). Qed.

(** An event leaves alone the records of the functions it does not name. *)
Lemma emit_other e addr self self' :
  function_addr_of e ≠ addr → emit e self = Some (tt, self') →
  _function_map self' !! addr = _function_map self !! addr.
Proof.
  intros Hne Hemit.
  destruct (emit_function_map e self) as (self1 & Hemit1 & Hmap).
  rewrite Hemit in Hemit1. simplify_eq. rewrite Hmap.
  by rewrite lookup_insert_ne.
Qed.

Lemma emit_all_other es addr self :
  Forall (λ e, function_addr_of e ≠ addr) es →
  ∃ self', emit_all es self = Some (tt, self')
           ∧ _function_map self' !! addr = _function_map self !! addr.
Proof.
  intros Hes. revert self.
  induction Hes as [|e es He Hes IH]; intros self; simpl.
  - by exists self.
  - destruct (emit_function_map e self) as (self1 & Hemit & Hmap).
    destruct (IH self1) as (self2 & Hall & Hlook).
    exists self2. unfold bind. rewrite Hemit. split; [done|].
    rewrite Hlook. by eapply emit_other.
Qed.

End manager.

(** ** The claims about the registry *)

(** C2. Emitting [call_to(f, a, b, r)] twice gives exactly the state that
    emitting it once gives, call graph included; in that state function [f]
    has one call-site item for [a], and [get_call_target(a)] is [b] and
    [get_call_return(a)] is [r]. *)
Theorem C2_call_to_idempotent (self : FunctionManager.t) (f a b r : Z) :
  FunctionManager.bind (FunctionManager.call_to f a b r)
    (λ _, FunctionManager.call_to f a b r) self
  = FunctionManager.call_to f a b r self
  ∧ ∃ self' fn,
      FunctionManager.call_to f a b r self = Some (tt, self')
      ∧ FunctionManager._function_map self' !! f = Some fn
      ∧ count_key a (Function._call_sites fn) = 1%nat
      ∧ Function.get_call_target a fn = Some b
      ∧ Function.get_call_return a fn = Some r.
Proof.
  split; [apply call_to_twice|].
  rewrite call_to_spec. do 2 eexists. split; [done|]. simpl.
  rewrite lookup_insert_eq. split; [done|].
  unfold Function.get_call_target, Function.get_call_return; simpl.
  rewrite lookup_insert_eq. split; [|done].
  by eapply count_key_Some, lookup_insert_eq.
Qed.

(** C3. When the registry has no record for the function an event names,
    each of the four events creates one: the event succeeds, [function]
    then answers that record, the record carries the address, and the
    address is one of the record's basic blocks. *)
Theorem C3_auto_vivification (self : FunctionManager.t)
    (e : FunctionManager.event) :
  FunctionManager._function_map self !! FunctionManager.function_addr_of e = None →
  ∃ self' fn,
    FunctionManager.emit e self = Some (tt, self')
    ∧ FunctionManager.function (FunctionManager.function_addr_of e) self'
      = Some (Some fn, self')
    ∧ Function.startpoint fn = FunctionManager.function_addr_of e
    ∧ FunctionManager.function_addr_of e ∈ Function.basic_blocks fn.
Proof.
  intros Hnone.
  destruct (emit_function_map e self) as (self' & Hemit & Hmap).
  rewrite (vivified_fresh _ _ Hnone) in Hmap.
  eexists self', _. split; [done|].
  rewrite function_spec, Hmap, lookup_insert_eq. split; [done|].
  unfold Function.startpoint. rewrite method_of_addr. split; [done|].
  apply method_of_blocks, fresh_function_block.
Qed.

Lemma C3_auto_vivification_witness :
  ∃ self' fn,
    FunctionManager.emit (FunctionManager.ReturnFrom 0x1000 0x1020 None)
      FunctionManager.__init__ = Some (tt, self')
    ∧ FunctionManager.function 0x1000 self' = Some (Some fn, self')
    ∧ Function.startpoint fn = 0x1000
    ∧ 0x1000 ∈ Function.basic_blocks fn.
Proof.
  apply (C3_auto_vivification FunctionManager.__init__
           (FunctionManager.ReturnFrom 0x1000 0x1020 None)).
  reflexivity.
Defined.

(** C7. When the registry has no record at [addr], [function(addr)]
    answers [None] without raising and leaves the registry as it was, so
    asking again answers [None] again; and after any events that do not
    name [addr] it still answers [None]. *)
Theorem C7_lookup_absent (self : FunctionManager.t) (addr : Z) :
  FunctionManager._function_map self !! addr = None →
  FunctionManager.function addr self = Some (None, self)
  ∧ FunctionManager.bind (FunctionManager.function addr)
      (λ _, FunctionManager.function addr) self = Some (None, self)
  ∧ ∀ es, Forall (λ e, FunctionManager.function_addr_of e ≠ addr) es →
      ∃ self', FunctionManager.emit_all es self = Some (tt, self')
               ∧ FunctionManager.function addr self' = Some (None, self').
Proof.
  intros Hnone.
  assert (Hfun : FunctionManager.function addr self = Some (None, self))
    by (by rewrite function_spec, Hnone).
  split; [done|]. split.
  - unfold FunctionManager.bind. by rewrite Hfun.
  - intros es Hes.
    destruct (emit_all_other es addr self Hes) as (self' & Hall & Hlook).
    exists self'. split; [done|].
    by rewrite function_spec, Hlook, Hnone.
Qed.

Lemma C7_lookup_absent_witness :
  FunctionManager.function 0x2000 FunctionManager.__init__
  = Some (None, FunctionManager.__init__)
  ∧ ∃ self',
      FunctionManager.emit_all
        [FunctionManager.CallTo 0x1000 0x1010 0x2000 0x1020]
        FunctionManager.__init__ = Some (tt, self')
      ∧ FunctionManager.function 0x2000 self' = Some (None, self').
Proof.
  destruct (C7_lookup_absent FunctionManager.__init__ 0x2000) as (H1 & _ & H3).
  - reflexivity.
  - split; [exact H1|]. apply H3.
    repeat constructor. simpl. lia.
Defined.

(** C8. In any registry, after [call_to(0x1000, 0x1010, 0x2000, 0x1020)]
    the call graph has the edge [0x1000 -> 0x2000]; a further call from
    [0x1000] to [0x2000], from whichever call site, leaves the call graph
    as it was, with that edge listed once. *)
Theorem C8_call_graph_simple (self : FunctionManager.t) :
  ∃ self1,
    FunctionManager.call_to 0x1000 0x1010 0x2000 0x1020 self = Some (tt, self1)
    ∧ DiGraph.has_edge 0x1000 0x2000
        (FunctionManager.interfunction_graph self1) = true
    ∧ (0x1000, 0x2000) ∈ DiGraph.edges (FunctionManager.interfunction_graph self1)
    ∧ ∀ from_addr retn_addr, ∃ self2,
        FunctionManager.call_to 0x1000 from_addr 0x2000 retn_addr self1
        = Some (tt, self2)
        ∧ FunctionManager.interfunction_graph self2
          = FunctionManager.interfunction_graph self1
        ∧ count_edge 0x1000 0x2000
            (FunctionManager.interfunction_graph self2) = 1%nat.
Proof.
  rewrite call_to_spec. eexists. split; [done|]. simpl.
  pose proof (add_edge_has_edge 0x1000 0x2000 ∅
                (FunctionManager.interfunction_graph self)) as Hedge.
  split; [done|]. split; [by apply elem_of_edges|].
  intros from_addr retn_addr. rewrite call_to_spec. eexists.
  split; [done|]. simpl. rewrite add_edge_idemp. split; [done|].
  by apply count_edge_has_edge.
Qed.

(** C9. The third argument of [return_from] has no effect: any two values
    of it, [None] included, give the same result, which is the registry
    with [from_addr] added to the return sites of the function. *)
Theorem C9_return_from_target_unused (self : FunctionManager.t) (f a : Z)
    (t t' : option Z) :
  FunctionManager.return_from f a t self = FunctionManager.return_from f a t' self
  ∧ FunctionManager.return_from f a t self = FunctionManager.return_from f a None self
  ∧ FunctionManager.return_from f a t self
    = Some (tt, {| FunctionManager._function_map :=
                     <[f := Function.add_return_site a (vivified f self)]>
                       (FunctionManager._function_map self);
                   FunctionManager.interfunction_graph :=
                     FunctionManager.interfunction_graph self |}).
Proof.
  split; [done|]. split; [done|].
  unfold FunctionManager.return_from. apply ensure_then.
Qed.

(** C10. When the registry has a record for [f], [call_to(f, from, to,
    retn)] leaves the transition graph of that record, hence its basic
    blocks, as they were; of the record only the call-site map and the
    reverse index change, and no other record changes. *)
Theorem C10_call_to_frame (self : FunctionManager.t) (fn : Function.t)
    (f from_addr to_addr retn_addr : Z) :
  FunctionManager._function_map self !! f = Some fn →
  ∃ self' fn',
    FunctionManager.call_to f from_addr to_addr retn_addr self = Some (tt, self')
    ∧ FunctionManager._function_map self' !! f = Some fn'
    ∧ Function._transition_graph fn' = Function._transition_graph fn
    ∧ Function.basic_blocks fn' = Function.basic_blocks fn
    ∧ fn' = Function.set_call_sites (Function._call_sites fn')
              (Function._retn_addr_to_call_site fn') fn
    ∧ (∀ g, g ≠ f → FunctionManager._function_map self' !! g
                    = FunctionManager._function_map self !! g).
Proof.
  intros Hf. rewrite call_to_spec, (vivified_known _ _ _ Hf).
  do 2 eexists. split; [done|]. simpl. rewrite lookup_insert_eq.
  split; [done|]. repeat split.
  intros g Hg. by rewrite lookup_insert_ne.
Qed.

Lemma C10_call_to_frame_witness :
  ∃ self' fn',
    FunctionManager.call_to 0x1000 0x1010 0x2000 0x1020
      {| FunctionManager._function_map :=
           {[ 0x1000 := Function.add_block 0x1000 (Function.__init__ 0x1000 None) ]};
         FunctionManager.interfunction_graph := DiGraph.empty |}
    = Some (tt, self')
    ∧ FunctionManager._function_map self' !! 0x1000 = Some fn'
    ∧ Function.basic_blocks fn'
      = Function.basic_blocks
          (Function.add_block 0x1000 (Function.__init__ 0x1000 None)).
Proof.
  destruct (C10_call_to_frame
              {| FunctionManager._function_map :=
                   {[ 0x1000 := Function.add_block 0x1000
                                  (Function.__init__ 0x1000 None) ]};
                 FunctionManager.interfunction_graph := DiGraph.empty |}
              (Function.add_block 0x1000 (Function.__init__ 0x1000 None))
              0x1000 0x1010 0x2000 0x1020)
    as (self' & fn' & Hcall & Hmap & _ & Hblocks & _).
  - apply lookup_singleton_eq.
  - exists self', fn'. repeat split; assumption.
Defined.

(** ** The record *)

Section record.
Import Function.
Implicit Types (fn : Function.t) (o : Function.op) (os : list Function.op).

Lemma run_snoc os o fn : run (os ++ [o]) fn = apply o (run os fn).
Proof. unfold run. by rewrite foldl_snoc. Qed.

Lemma run_cons o os fn : run (o :: os) fn = run os (apply o fn).
Proof. done. Qed.

(** A call either registers a call site or leaves both call-site
    dictionaries alone. *)
Lemma apply_call_sites o fn :
  (∃ a t r, o = AddCallSite a t r)
  ∨ (_call_sites (apply o fn) = _call_sites fn
     ∧ _retn_addr_to_call_site (apply o fn) = _retn_addr_to_call_site fn).
Proof.
  destruct o; simpl; try (by right); [by left; eauto|..];
    right; unfold add_argument_register, add_argument_stack_variable;
    by case_decide.
Qed.

Lemma apply_ret_sites o fn : _ret_sites fn ⊆ _ret_sites (apply o fn).
Proof.
  destruct o; simpl; try done; [set_solver|..];
    unfold add_argument_register, add_argument_stack_variable;
    by case_decide.
Qed.

Lemma run_ret_sites os fn : _ret_sites fn ⊆ _ret_sites (run os fn).
Proof.
  revert fn. induction os as [|o os IH]; intros fn; [done|].
  rewrite run_cons. etrans; [apply (apply_ret_sites o)|apply IH].
Qed.

Lemma has_return_nonempty fn :
  has_return fn = bool_decide (_ret_sites fn ≠ ∅).
Proof.
  unfold has_return. apply bool_decide_ext. split.
  - intros Hpos Heq. rewrite Heq, size_empty in Hpos. lia.
  - intros Hne. destruct (decide (size (_ret_sites fn) = 0%nat)) as [Hz|Hz]; [|lia].
    apply size_empty_inv, leibniz_equiv in Hz. done.
Qed.

Lemma has_return_elem a fn : a ∈ _ret_sites fn → has_return fn = true.
Proof.
  intros Ha. rewrite has_return_nonempty. apply bool_decide_eq_true_2.
  set_solver.
Qed.

Lemma NoDup_append_absent (x : Z) (l : list Z) :
  NoDup l → x ∉ l → NoDup (l ++ [x]).
Proof.
  intros Hl Hx. apply NoDup_app. split; [done|]. split.
  - by intros y Hy ->%list_elem_of_singleton.
  - apply NoDup_singleton.
Qed.

(** The argument lists never hold an offset twice. *)
Lemma apply_argument_NoDup o fn :
  NoDup (_argument_registers fn) ∧ NoDup (_argument_stack_variables fn) →
  NoDup (_argument_registers (apply o fn))
  ∧ NoDup (_argument_stack_variables (apply o fn)).
Proof.
  intros [Hr Hs]. destruct o; simpl; try done.
  - unfold add_argument_register. case_decide; simpl; [done|].
    split; [|done]. by apply NoDup_append_absent.
  - unfold add_argument_stack_variable. case_decide; simpl; [done|].
    split; [done|]. by apply NoDup_append_absent.
Qed.

Lemma run_argument_NoDup os fn :
  NoDup (_argument_registers fn) ∧ NoDup (_argument_stack_variables fn) →
  NoDup (_argument_registers (run os fn))
  ∧ NoDup (_argument_stack_variables (run os fn)).
Proof.
  revert fn. induction os as [|o os IH]; intros fn Hfn; [done|].
  rewrite run_cons. by apply IH, apply_argument_NoDup.
Qed.

(** A recorded call site was registered by some call. *)
Lemma run_call_sites_origin addr nm os a t r :
  _call_sites (run os (__init__ addr nm)) !! a = Some (t, r) →
  AddCallSite a t r ∈ os.
Proof.
  induction os as [|o os IH] using rev_ind; [cbn; by rewrite lookup_empty|].
  rewrite run_snoc, elem_of_app, list_elem_of_singleton.
  destruct (apply_call_sites o (run os (__init__ addr nm)))
    as [(a' & t' & r' & ->)|[-> _]]; [|by auto].
  simpl. destruct (decide (a' = a)) as [->|Hne].
  - rewrite lookup_insert_eq. intros [= -> ->]. by right.
  - rewrite lookup_insert_ne by done. auto.
Qed.

Lemma apply_reverse_index_defined o fn :
  reverse_index_defined fn → reverse_index_defined (apply o fn).
Proof.
  intros Hfn.
  destruct (apply_call_sites o fn) as [(a' & t' & r' & ->)|[Hc Hr]].
  - intros r a; simpl. destruct (decide (r' = r)) as [->|Hne].
    + rewrite lookup_insert_eq. intros [= ->]. by rewrite lookup_insert_eq.
    + rewrite lookup_insert_ne by done. intros Hra%Hfn.
      destruct (decide (a' = a)) as [->|Hne'].
      * by rewrite lookup_insert_eq.
      * by rewrite lookup_insert_ne.
  - unfold reverse_index_defined. by rewrite Hc, Hr.
Qed.

Lemma run_reverse_index_defined os fn :
  reverse_index_defined fn → reverse_index_defined (run os fn).
Proof.
  revert fn. induction os as [|o os IH]; intros fn Hfn; [done|].
  rewrite run_cons. by apply IH, apply_reverse_index_defined.
Qed.

Lemma one_retn_per_site_snoc os o :
  one_retn_per_site (os ++ [o]) →
  one_retn_per_site os ∧ Forall (λ o', same_site_same_retn o' o) os.
Proof.
  unfold one_retn_per_site. rewrite Forall_app. intros [Hos _]. split.
  - eapply Forall_impl; [exact Hos|]. simpl. by intros o' [? _]%Forall_app.
  - eapply Forall_impl; [exact Hos|]. simpl.
    intros o' [_ Ho']%Forall_app. by apply Forall_cons_1 in Ho' as [? _].
Qed.

Lemma run_reverse_index_consistent addr nm os :
  one_retn_per_site os →
  reverse_index_consistent (run os (__init__ addr nm)).
Proof.
  induction os as [|o os IH] using rev_ind; intros Hos.
  { intros r a. cbn. by rewrite lookup_empty. }
  apply one_retn_per_site_snoc in Hos as [Hos Ho]. specialize (IH Hos).
  rewrite run_snoc.
  destruct (apply_call_sites o (run os (__init__ addr nm)))
    as [(a' & t' & r' & ->)|[Hc Hr]].
  - intros r a; simpl. destruct (decide (r' = r)) as [->|Hne].
    + rewrite lookup_insert_eq. intros [= ->]. rewrite lookup_insert_eq. eauto.
    + rewrite lookup_insert_ne by done. intros (t & Hsite)%IH.
      destruct (decide (a' = a)) as [->|Hne'].
      * apply run_call_sites_origin in Hsite.
        rewrite Forall_forall in Ho. apply Ho in Hsite. simpl in Hsite.
        destruct Hne. symmetry. by apply Hsite.
      * rewrite lookup_insert_ne by done. eauto.
  - unfold reverse_index_consistent. by rewrite Hc, Hr.
Qed.

End record.

(** ** The claims about the record *)

(** C1, as stated, fails: registering the call site [0x1010] a second time
    with another return address leaves the key [0x1020] in the reverse
    index, while the call site [0x1010] now records [0x1030]. *)
Lemma C1_reverse_index_counterexample :
  ¬ reverse_index_consistent
      (Function.run [Function.AddCallSite 0x1010 0x2000 0x1020;
                     Function.AddCallSite 0x1010 0x3000 0x1030]
         (Function.__init__ 0x1000 None)).
Proof.
  intros Hcons. destruct (Hcons 0x1020 0x1010) as [t Ht].
  - reflexivity.
  - vm_compute in Ht. discriminate Ht.
Qed.

(** C1, amended. For a new record and every sequence of calls on it, every
    key of the reverse index leads to a recorded call site; and when no
    call site is registered with two return addresses, the return address
    recorded for that call site is the key. *)
Theorem C1_reverse_index_amended (addr : Z) (nm : option string)
    (os : list Function.op) :
  reverse_index_defined (Function.run os (Function.__init__ addr nm))
  ∧ (one_retn_per_site os →
     reverse_index_consistent (Function.run os (Function.__init__ addr nm))).
Proof.
  split.
  - apply run_reverse_index_defined. intros r a. cbn. by rewrite lookup_empty.
  - apply run_reverse_index_consistent.
Qed.

Lemma C1_reverse_index_amended_witness :
  reverse_index_consistent
    (Function.run [Function.AddCallSite 0x1010 0x2000 0x1020;
                   Function.AddReturnSite 0x1060;
                   Function.AddCallSite 0x1040 0x2000 0x1050;
                   Function.AddCallSite 0x1010 0x3000 0x1020]
       (Function.__init__ 0x1000 None)).
Proof.
  apply (C1_reverse_index_amended 0x1000 None).
  apply (bool_decide_unpack _). vm_compute. exact I.
Defined.

(** C5. On a new record, [add_argument_register(4)],
    [add_argument_register(4)], [add_argument_register(8)] leave the
    register list [4, 8]; the stack-variable list follows the same rule;
    both methods append an offset that is absent and do nothing for one that
    is present, so the lists of a record never hold an offset twice. *)
Theorem C5_argument_dedup_order (addr : Z) (nm : option string) :
  Function._argument_registers
    (Function.run [Function.AddArgumentRegister 4;
                   Function.AddArgumentRegister 4;
                   Function.AddArgumentRegister 8]
       (Function.__init__ addr nm)) = [4; 8]
  ∧ Function._argument_stack_variables
      (Function.run [Function.AddArgumentStackVariable 4;
                     Function.AddArgumentStackVariable 4;
                     Function.AddArgumentStackVariable 8]
         (Function.__init__ addr nm)) = [4; 8]
  ∧ (∀ fn x,
       Function._argument_registers (Function.add_argument_register x fn)
       = if decide (x ∈ Function._argument_registers fn)
         then Function._argument_registers fn
         else Function._argument_registers fn ++ [x])
  ∧ (∀ fn x,
       Function._argument_stack_variables
         (Function.add_argument_stack_variable x fn)
       = if decide (x ∈ Function._argument_stack_variables fn)
         then Function._argument_stack_variables fn
         else Function._argument_stack_variables fn ++ [x])
  ∧ (∀ os,
       NoDup (Function._argument_registers
                (Function.run os (Function.__init__ addr nm)))
       ∧ NoDup (Function._argument_stack_variables
                  (Function.run os (Function.__init__ addr nm)))).
Proof.
  split; [reflexivity|]. split; [reflexivity|]. split; [|split].
  - intros fn x. unfold Function.add_argument_register. by case_decide.
  - intros fn x. unfold Function.add_argument_stack_variable. by case_decide.
  - intros os. apply run_argument_NoDup. split; apply NoDup_nil_2.
Qed.

(** C6. [has_return] says whether the set of return sites is non-empty:
    it is false on a new record, and true after one [add_return_site],
    whatever calls follow. *)
Theorem C6_has_return (addr : Z) (nm : option string) :
  (∀ fn, Function.has_return fn = bool_decide (Function._ret_sites fn ≠ ∅))
  ∧ Function.has_return (Function.__init__ addr nm) = false
  ∧ (∀ fn a os,
       Function.has_return
         (Function.run os (Function.add_return_site a fn)) = true).
Proof.
  split; [apply has_return_nonempty|]. split; [reflexivity|].
  intros fn a os. apply (has_return_elem a).
  apply run_ret_sites. unfold Function.add_return_site; simpl. set_solver.
Qed.

(** C4. From the empty registry, [transit_to(0x1000, 0x1000, 0x1010)],
    [call_to(0x1000, 0x1010, 0x2000, 0x1020)], [return_from(0x1000,
    0x1020)] succeed and leave a function [0x1000] whose basic blocks
    include [0x1000] and [0x1010], whose only call site is [0x1010], with
    target [0x2000] and return address [0x1020], whose return sites are
    [{0x1020}] and which has a return; the call graph has the edge
    [0x1000 -> 0x2000]. *)
Theorem C4_end_to_end :
  ∃ self fn,
    FunctionManager.emit_all
      [FunctionManager.TransitTo 0x1000 0x1000 0x1010;
       FunctionManager.CallTo 0x1000 0x1010 0x2000 0x1020;
       FunctionManager.ReturnFrom 0x1000 0x1020 None]
      FunctionManager.__init__ = Some (tt, self)
    ∧ FunctionManager.function 0x1000 self = Some (Some fn, self)
    ∧ 0x1000 ∈ Function.basic_blocks fn
    ∧ 0x1010 ∈ Function.basic_blocks fn
    ∧ Function._call_sites fn = {[ 0x1010 := (0x2000, 0x1020) ]}
    ∧ Function.get_call_sites fn = {[ 0x1010 ]}
    ∧ Function.get_call_target 0x1010 fn = Some 0x2000
    ∧ Function.get_call_return 0x1010 fn = Some 0x1020
    ∧ Function._ret_sites fn = {[ 0x1020 ]}
    ∧ Function.has_return fn = true
    ∧ DiGraph.has_edge 0x1000 0x2000
        (FunctionManager.interfunction_graph self) = true
    ∧ (0x1000, 0x2000)
      ∈ DiGraph.edges (FunctionManager.interfunction_graph self).
Proof.
  eexists _, _. split; [vm_compute; reflexivity|].
  split; [vm_compute; reflexivity|].
  split; [apply (bool_decide_unpack _); vm_compute; exact I|].
  split; [apply (bool_decide_unpack _); vm_compute; exact I|].
  split; [vm_compute; reflexivity|]. split; [vm_compute; reflexivity|].
  split; [vm_compute; reflexivity|]. split; [vm_compute; reflexivity|].
  split; [vm_compute; reflexivity|]. split; [vm_compute; reflexivity|].
  split; [vm_compute; reflexivity|].
  apply elem_of_edges. vm_compute; reflexivity.
Qed.

(** * Further properties of the code *)

Set Warnings "-clear-no-such-hyp".

(** ** Edges and nodes of the graph container *)

Section digraph_edges.
Implicit Types (g : DiGraph.t) (u v x y n : Z) (attr : gmap string string).

Lemma edge_data_nbrs x y g :
  DiGraph.edge_data x y g = default ∅ (DiGraph.adj g !! x) !! y.
Proof. unfold DiGraph.edge_data. by destruct (DiGraph.adj g !! x). Qed.

Lemma has_edge_edge_data x y g :
  DiGraph.has_edge x y g = bool_decide (is_Some (DiGraph.edge_data x y g)).
Proof.
  unfold DiGraph.has_edge, DiGraph.edge_data.
  by destruct (DiGraph.adj g !! x).
Qed.

Lemma edge_data_add_node x y n g :
  DiGraph.edge_data x y (DiGraph.add_node n g) = DiGraph.edge_data x y g.
Proof. by rewrite !edge_data_nbrs, add_node_nbrs. Qed.

(** An edge that is added has the new attributes over the old ones; the
    other edges keep theirs. *)
Lemma edge_data_add_edge x y u v attr g :
  DiGraph.edge_data x y (DiGraph.add_edge u v attr g)
  = if decide (x = u ∧ y = v)
    then Some (attr ∪ default ∅ (DiGraph.edge_data u v g))
    else DiGraph.edge_data x y g.
Proof.
  case_decide as Hxy.
  - destruct Hxy as [-> ->].
    destruct (add_edge_adj u v attr g) as (nbrs & Hu & Hv).
    unfold DiGraph.edge_data at 1. by rewrite Hu.
  - rewrite edge_data_nbrs. unfold DiGraph.add_edge; simpl.
    destruct (decide (x = u)) as [->|Hne].
    + rewrite lookup_insert_eq; simpl.
      rewrite lookup_insert_ne by (intros ->; by apply Hxy).
      by rewrite !add_node_nbrs, edge_data_nbrs.
    + rewrite lookup_insert_ne by done.
      by rewrite !add_node_nbrs, edge_data_nbrs.
Qed.

Lemma has_edge_add_node x y n g :
  DiGraph.has_edge x y (DiGraph.add_node n g) = DiGraph.has_edge x y g.
Proof. by rewrite !has_edge_edge_data, edge_data_add_node. Qed.

Lemma has_edge_add_edge x y u v attr g :
  DiGraph.has_edge x y (DiGraph.add_edge u v attr g) = true
  ↔ (x = u ∧ y = v) ∨ DiGraph.has_edge x y g = true.
Proof.
  rewrite !has_edge_edge_data, edge_data_add_edge.
  case_decide as Hxy.
  - split; [by left|]. intros _. by apply bool_decide_eq_true_2.
  - split; [by right|]. by intros [?|?].
Qed.

Lemma dom_adj_add_node n g :
  dom (DiGraph.adj (DiGraph.add_node n g)) = {[ n ]} ∪ dom (DiGraph.adj g).
Proof.
  unfold DiGraph.add_node.
  destruct (DiGraph.adj g !! n) as [nbrs|] eqn:Hn; simpl.
  - apply (elem_of_dom_2 (D := gset Z)) in Hn. set_solver.
  - by rewrite dom_insert_L.
Qed.

Lemma dom_adj_add_edge u v attr g :
  dom (DiGraph.adj (DiGraph.add_edge u v attr g))
  = {[ u; v ]} ∪ dom (DiGraph.adj g).
Proof.
  unfold DiGraph.add_edge; simpl.
  rewrite dom_insert_L, !dom_adj_add_node. set_solver.
Qed.

Lemma graph_closed_empty : graph_closed DiGraph.empty.
Proof.
  split; [done|]. intros u v. unfold DiGraph.has_edge; simpl.
  by rewrite lookup_empty.
Qed.

Lemma graph_closed_add_node n g :
  graph_closed g → graph_closed (DiGraph.add_node n g).
Proof.
  intros [Hdom Hsucc]. split.
  - rewrite dom_adj_add_node. unfold DiGraph.add_node.
    destruct (DiGraph.adj g !! n) as [nbrs|] eqn:Hn; simpl.
    + apply (elem_of_dom_2 (D := gset Z)) in Hn. set_solver.
    + rewrite dom_insert_L. by rewrite Hdom.
  - intros u v. rewrite has_edge_add_node, dom_adj_add_node.
    intros Huv%Hsucc. set_solver.
Qed.

Lemma graph_closed_add_edge u v attr g :
  graph_closed g → graph_closed (DiGraph.add_edge u v attr g).
Proof.
  intros Hg.
  pose proof (graph_closed_add_node v _ (graph_closed_add_node u _ Hg))
    as [Hdom1 _].
  destruct Hg as [Hdom Hsucc]. split.
  - rewrite dom_adj_add_edge. unfold DiGraph.add_edge; simpl.
    rewrite Hdom1, !dom_adj_add_node. set_solver.
  - intros x y. rewrite has_edge_add_edge, dom_adj_add_edge.
    intros [[-> ->]|Hxy%Hsucc]; set_solver.
Qed.

Lemma nodes_add_node n g :
  graph_closed g →
  DiGraph.nodes (DiGraph.add_node n g) = {[ n ]} ∪ DiGraph.nodes g.
Proof.
  intros Hg. destruct (graph_closed_add_node n g Hg) as [Hdom' _].
  destruct Hg as [Hdom _]. unfold DiGraph.nodes.
  by rewrite Hdom', dom_adj_add_node, Hdom.
Qed.

Lemma nodes_add_edge u v attr g :
  graph_closed g →
  DiGraph.nodes (DiGraph.add_edge u v attr g) = {[ u; v ]} ∪ DiGraph.nodes g.
Proof.
  intros Hg. destruct (graph_closed_add_edge u v attr g Hg) as [Hdom' _].
  destruct Hg as [Hdom _]. unfold DiGraph.nodes.
  by rewrite Hdom', dom_adj_add_edge, Hdom.
Qed.

Lemma add_node_present n g :
  graph_closed g → n ∈ DiGraph.nodes g → DiGraph.add_node n g = g.
Proof.
  intros [Hdom _] Hn. apply add_node_known.
  unfold DiGraph.nodes in Hn. rewrite Hdom in Hn. by apply elem_of_dom in Hn.
Qed.

Lemma has_edge_source u v g :
  DiGraph.has_edge u v g = true → u ∈ dom (DiGraph.adj g).
Proof.
  unfold DiGraph.has_edge.
  destruct (DiGraph.adj g !! u) as [nbrs|] eqn:Hu; [|done].
  intros _. by apply elem_of_dom.
Qed.

End digraph_edges.

(** ** What a record holds after a sequence of calls *)

Section record_contents.
Import Function.
Implicit Types (fn : Function.t) (o : Function.op) (os : list Function.op).

Lemma apply_transition_graph o fn :
  _transition_graph (apply o fn)
  = match o with
    | TransitTo a b =>
        DiGraph.add_edge a b {[ "type" := "transition" ]} (_transition_graph fn)
    | ReturnFromCall a b =>
        DiGraph.add_edge a b {[ "type" := "return_from_call" ]}
          (_transition_graph fn)
    | AddBlock a => DiGraph.add_node a (_transition_graph fn)
    | _ => _transition_graph fn
    end.
Proof.
  destruct o; simpl; try done;
    unfold add_argument_register, add_argument_stack_variable; by case_decide.
Qed.

Lemma apply_argument_registers o fn :
  _argument_registers (apply o fn)
  = match o with
    | AddArgumentRegister x =>
        if decide (x ∈ _argument_registers fn) then _argument_registers fn
        else _argument_registers fn ++ [x]
    | _ => _argument_registers fn
    end.
Proof.
  destruct o; simpl; try done;
    unfold add_argument_register, add_argument_stack_variable; by case_decide.
Qed.

Lemma apply_argument_stack_variables o fn :
  _argument_stack_variables (apply o fn)
  = match o with
    | AddArgumentStackVariable x =>
        if decide (x ∈ _argument_stack_variables fn)
        then _argument_stack_variables fn
        else _argument_stack_variables fn ++ [x]
    | _ => _argument_stack_variables fn
    end.
Proof.
  destruct o; simpl; try done;
    unfold add_argument_register, add_argument_stack_variable; by case_decide.
Qed.

Lemma apply_ret_sites_eq o fn :
  _ret_sites (apply o fn)
  = match o with
    | AddReturnSite a => {[ a ]} ∪ _ret_sites fn
    | _ => _ret_sites fn
    end.
Proof.
  destruct o; simpl; try done;
    unfold add_argument_register, add_argument_stack_variable; by case_decide.
Qed.

Lemma apply_call_sites_eq o fn :
  _call_sites (apply o fn)
  = match o with
    | AddCallSite a t r => <[a := (t, r)]> (_call_sites fn)
    | _ => _call_sites fn
    end.
Proof.
  destruct o; simpl; try done;
    unfold add_argument_register, add_argument_stack_variable; by case_decide.
Qed.

Lemma apply_addr o fn : _addr (apply o fn) = _addr fn.
Proof.
  destruct o; simpl; try done;
    unfold add_argument_register, add_argument_stack_variable; by case_decide.
Qed.

Lemma apply_graph_closed o fn :
  graph_closed (_transition_graph fn) →
  graph_closed (_transition_graph (apply o fn)).
Proof.
  intros Hfn. rewrite apply_transition_graph.
  destruct o; auto using graph_closed_add_edge, graph_closed_add_node.
Qed.

Lemma run_graph_closed os fn :
  graph_closed (_transition_graph fn) →
  graph_closed (_transition_graph (run os fn)).
Proof.
  revert fn. induction os as [|o os IH]; intros fn Hfn; [done|].
  rewrite run_cons. by apply IH, apply_graph_closed.
Qed.

Lemma run_fresh_graph_closed addr nm os :
  graph_closed (_transition_graph (run os (__init__ addr nm))).
Proof. apply run_graph_closed, graph_closed_empty. Qed.

Lemma last_call_site_snoc a os o :
  last_call_site a (os ++ [o])
  = match o with
    | AddCallSite a' t r =>
        if decide (a' = a) then Some (t, r) else last_call_site a os
    | _ => last_call_site a os
    end.
Proof. unfold last_call_site. by rewrite foldl_snoc. Qed.

Lemma last_edge_type_snoc u v os o :
  last_edge_type u v (os ++ [o])
  = match o with
    | TransitTo a b =>
        if decide (a = u ∧ b = v) then Some "transition"
        else last_edge_type u v os
    | ReturnFromCall a b =>
        if decide (a = u ∧ b = v) then Some "return_from_call"
        else last_edge_type u v os
    | _ => last_edge_type u v os
    end.
Proof. unfold last_edge_type. by rewrite foldl_snoc. Qed.

Lemma run_call_sites_last addr nm os a :
  _call_sites (run os (__init__ addr nm)) !! a = last_call_site a os.
Proof.
  induction os as [|o os IH] using rev_ind; [cbn; by rewrite lookup_empty|].
  rewrite run_snoc, apply_call_sites_eq, last_call_site_snoc.
  destruct o; try done. case_decide as Ha.
  - subst. by rewrite lookup_insert_eq.
  - by rewrite lookup_insert_ne.
Qed.

(** One [type] over another leaves the first. *)
Lemma type_over_type (ty : string) (old : option string) :
  ({[ "type" := ty ]} : gmap string string)
    ∪ default ∅ ((λ ty', {[ "type" := ty' ]}) <$> old)
  = {[ "type" := ty ]}.
Proof.
  destruct old as [ty'|]; simpl.
  - by rewrite <- insert_union_singleton_l, insert_singleton_eq.
  - by rewrite (right_id_L ∅ (∪)).
Qed.

Lemma run_edge_type_last addr nm os u v :
  DiGraph.edge_data u v (_transition_graph (run os (__init__ addr nm)))
  = (λ ty, {[ "type" := ty ]}) <$> last_edge_type u v os.
Proof.
  induction os as [|o os IH] using rev_ind.
  { cbn. unfold DiGraph.edge_data; simpl. by rewrite lookup_empty. }
  rewrite run_snoc, apply_transition_graph, last_edge_type_snoc.
  destruct o; try done.
  - rewrite edge_data_add_edge. case_decide as Huv.
    + destruct Huv as [-> ->]. rewrite decide_True by done.
      by rewrite IH, type_over_type.
    + rewrite decide_False by (intros [-> ->]; by apply Huv). done.
  - rewrite edge_data_add_edge. case_decide as Huv.
    + destruct Huv as [-> ->]. rewrite decide_True by done.
      by rewrite IH, type_over_type.
    + rewrite decide_False by (intros [-> ->]; by apply Huv). done.
  - by rewrite edge_data_add_node.
Qed.

Lemma run_basic_blocks addr nm os :
  basic_blocks (run os (__init__ addr nm)) = list_to_set (os ≫= op_blocks).
Proof.
  unfold basic_blocks.
  induction os as [|o os IH] using rev_ind; [done|].
  pose proof (run_fresh_graph_closed addr nm os) as Hclosed.
  rewrite run_snoc, apply_transition_graph, bind_app, list_to_set_app_L.
  rewrite <- IH. rewrite bind_singleton.
  destruct o; simpl; rewrite ?nodes_add_edge, ?nodes_add_node by done;
    set_solver.
Qed.

Lemma run_ret_sites_elem addr nm os x :
  x ∈ _ret_sites (run os (__init__ addr nm)) ↔ AddReturnSite x ∈ os.
Proof.
  induction os as [|o os IH] using rev_ind.
  { cbn. rewrite elem_of_nil. set_solver. }
  rewrite run_snoc, apply_ret_sites_eq, elem_of_app, list_elem_of_singleton.
  destruct o; rewrite ?elem_of_union, ?elem_of_singleton, IH; naive_solver.
Qed.

Lemma elem_of_first_occurrences x l : x ∈ first_occurrences l ↔ x ∈ l.
Proof.
  unfold first_occurrences.
  by rewrite elem_of_reverse, elem_of_remove_dups, elem_of_reverse.
Qed.

Lemma first_occurrences_snoc x l :
  first_occurrences (l ++ [x])
  = if decide (x ∈ first_occurrences l) then first_occurrences l
    else first_occurrences l ++ [x].
Proof.
  unfold first_occurrences at 1. rewrite reverse_app; simpl.
  destruct (decide_rel elem_of x (reverse l)) as [Hin|Hnin].
  - rewrite decide_True; [done|]. apply elem_of_first_occurrences.
    by apply elem_of_reverse.
  - rewrite decide_False.
    + rewrite reverse_cons. reflexivity.
    + by rewrite elem_of_first_occurrences, <- elem_of_reverse.
Qed.

Lemma run_argument_registers addr nm os :
  _argument_registers (run os (__init__ addr nm))
  = first_occurrences (reg_offsets os).
Proof.
  induction os as [|o os IH] using rev_ind; [done|].
  rewrite run_snoc, apply_argument_registers. unfold reg_offsets.
  rewrite bind_app, bind_singleton. fold (reg_offsets os).
  destruct o; rewrite ?(right_id_L [] (++)); try done.
  by rewrite first_occurrences_snoc, IH.
Qed.

Lemma run_argument_stack_variables addr nm os :
  _argument_stack_variables (run os (__init__ addr nm))
  = first_occurrences (stack_offsets os).
Proof.
  induction os as [|o os IH] using rev_ind; [done|].
  rewrite run_snoc, apply_argument_stack_variables. unfold stack_offsets.
  rewrite bind_app, bind_singleton. fold (stack_offsets os).
  destruct o; rewrite ?(right_id_L [] (++)); try done.
  by rewrite first_occurrences_snoc, IH.
Qed.

End record_contents.

(** ** What the registry holds after a sequence of events *)

Section manager_contents.
Import FunctionManager.
Implicit Types (self : FunctionManager.t) (fn : Function.t)
  (e : FunctionManager.event) (es : list FunctionManager.event).

Lemma apply_op_of e fn : Function.apply (op_of e) fn = method_of e fn.
Proof. by destruct e. Qed.

(** An event, in full. *)
Lemma emit_spec e self :
  emit e self
  = Some (tt, {| _function_map :=
                   <[function_addr_of e :=
                       method_of e (vivified (function_addr_of e) self)]>
                     (_function_map self);
                 interfunction_graph :=
                   call_graph_after e (interfunction_graph self) |}).
Proof.
  destruct e as [f a b r|f a t|f a b|f a b]; simpl.
  - apply call_to_spec.
  - unfold return_from. apply ensure_then.
  - unfold transit_to. apply ensure_then.
  - unfold return_from_call. apply ensure_then.
Qed.

Lemma emit_all_app es1 es2 self :
  emit_all (es1 ++ es2) self = (emit_all es1 ;; emit_all es2) self.
Proof.
  revert self. induction es1 as [|e es1 IH]; intros self; [done|].
  simpl. unfold bind. rewrite emit_spec. rewrite IH. reflexivity.
Qed.

Lemma emit_all_snoc es e self :
  emit_all (es ++ [e]) self = (emit_all es ;; emit e) self.
Proof.
  rewrite emit_all_app. unfold bind.
  destruct (emit_all es self) as [[[] self1]|]; [|done].
  simpl. unfold bind. by rewrite emit_spec.
Qed.

Lemma routed_snoc f es e :
  routed f (es ++ [e])
  = if decide (function_addr_of e = f) then routed f es ++ [op_of e]
    else routed f es.
Proof.
  unfold routed. rewrite filter_app, fmap_app.
  case_decide as Hf.
  - by rewrite filter_cons_True, filter_nil by done.
  - rewrite filter_cons_False, filter_nil by done.
    by rewrite fmap_nil, (right_id_L [] (++)).
Qed.

Lemma routed_unnamed f es :
  f ∉ function_addr_of <$> es → routed f es = [].
Proof.
  intros Hf. unfold routed.
  induction es as [|e es IH]; [done|].
  rewrite fmap_cons, not_elem_of_cons in Hf. destruct Hf as [Hne Hf].
  rewrite filter_cons_False by done. auto.
Qed.

(** From the empty registry, the record of a function is a new record with
    its own address as a block, on which the calls of the events that
    name the function ran in order; no other address has a record. *)
Lemma emit_all_routed es :
  ∃ self,
    emit_all es __init__ = Some (tt, self)
    ∧ ∀ f, _function_map self !! f
           = if decide (f ∈ function_addr_of <$> es)
             then Some (Function.run (Function.AddBlock f :: routed f es)
                          (Function.__init__ f None))
             else None.
Proof.
  induction es as [|e es (self & Hes & Hmap)] using rev_ind.
  { exists __init__. split; [done|]. intros f. simpl. apply lookup_empty. }
  rewrite emit_all_snoc. unfold bind. rewrite Hes, emit_spec.
  eexists. split; [done|]. intros f; simpl.
  rewrite fmap_app, routed_snoc. simpl.
  destruct (decide (function_addr_of e = f)) as [<-|Hne].
  - rewrite lookup_insert_eq, decide_True by set_solver.
    f_equal. rewrite run_snoc, apply_op_of. f_equal.
    unfold vivified. rewrite Hmap. case_decide as Hin; [done|].
    by rewrite routed_unnamed.
  - rewrite lookup_insert_ne, Hmap by done.
    apply decide_ext. set_solver.
Qed.

Lemma call_edges_snoc es e :
  call_edges (es ++ [e])
  = call_edges es ++ match e with
                     | CallTo f _ b _ => [(f, b)]
                     | _ => []
                     end.
Proof. unfold call_edges. by rewrite bind_app, bind_singleton. Qed.

(** From the empty registry, the call graph is closed and has exactly the
    edges of the [call_to] events. *)
Lemma emit_all_call_graph es :
  ∃ self,
    emit_all es __init__ = Some (tt, self)
    ∧ graph_closed (interfunction_graph self)
    ∧ (∀ u v, DiGraph.has_edge u v (interfunction_graph self) = true
              ↔ (u, v) ∈ call_edges es)
    ∧ DiGraph.nodes (interfunction_graph self)
      = list_to_set (call_edges es ≫= λ uv, [uv.1; uv.2])
    ∧ (∀ u v, DiGraph.has_edge u v (interfunction_graph self) = true →
              DiGraph.edge_data u v (interfunction_graph self) = Some ∅).
Proof.
  induction es as [|e es (self & Hes & Hclosed & Hedges & Hnodes & Hdata)]
    using rev_ind.
  { exists __init__. split; [done|]. split; [apply graph_closed_empty|].
    split; [|split; [done|]].
    - intros u v. simpl. rewrite elem_of_nil. unfold DiGraph.has_edge; simpl.
      by rewrite lookup_empty.
    - intros u v. unfold DiGraph.has_edge; simpl. by rewrite lookup_empty. }
  rewrite emit_all_snoc. unfold bind. rewrite Hes, emit_spec.
  eexists. split; [done|]. simpl. rewrite call_edges_snoc.
  destruct e as [f a b r|f a t|f a b|f a b]; simpl;
    rewrite ?(right_id_L [] (++)); try done.
  split; [by apply graph_closed_add_edge|]. split; [|split].
  - intros u v. rewrite has_edge_add_edge, Hedges, elem_of_app,
      list_elem_of_singleton. naive_solver.
  - rewrite nodes_add_edge, Hnodes, bind_app, list_to_set_app_L by done.
    rewrite bind_singleton. simpl. set_solver.
  - intros u v. rewrite has_edge_add_edge, edge_data_add_edge.
    intros Huv. case_decide as Hfb.
    + destruct Hfb as [-> ->]. rewrite (left_id_L ∅ (∪)).
      destruct (DiGraph.has_edge f b (interfunction_graph self)) eqn:Hold.
      * by rewrite (Hdata _ _ Hold).
      * rewrite has_edge_edge_data in Hold.
        apply bool_decide_eq_false_1 in Hold.
        by destruct (DiGraph.edge_data f b (interfunction_graph self));
          [destruct Hold|].
    + destruct Huv as [Huv|Huv]; [done|]. by apply Hdata.
Qed.

Lemma emit_all_total es self :
  ∃ self',
    emit_all es self = Some (tt, self')
    ∧ dom (_function_map self')
      = dom (_function_map self) ∪ list_to_set (function_addr_of <$> es).
Proof.
  revert self. induction es as [|e es IH]; intros self.
  { exists self. split; [done|]. simpl. set_solver. }
  simpl. unfold bind. rewrite emit_spec.
  destruct (IH {| _function_map :=
                    <[function_addr_of e :=
                        method_of e (vivified (function_addr_of e) self)]>
                      (_function_map self);
                  interfunction_graph :=
                    call_graph_after e (interfunction_graph self) |})
    as (self' & Hall & Hdom).
  exists self'. split; [done|]. rewrite Hdom; simpl.
  rewrite dom_insert_L. set_solver.
Qed.

Lemma add_return_site_idemp a fn :
  Function.add_return_site a (Function.add_return_site a fn)
  = Function.add_return_site a fn.
Proof.
  unfold Function.add_return_site, Function.set_ret_sites; simpl.
  f_equal. set_solver.
Qed.

Lemma method_of_idemp e fn : method_of e (method_of e fn) = method_of e fn.
Proof.
  destruct e; simpl.
  - apply add_call_site_idemp.
  - apply add_return_site_idemp.
  - unfold Function.transit_to, Function.set_transition_graph; simpl.
    by rewrite add_edge_idemp.
  - unfold Function.return_from_call, Function.set_transition_graph; simpl.
    by rewrite add_edge_idemp.
Qed.

Lemma call_graph_after_idemp e g :
  call_graph_after e (call_graph_after e g) = call_graph_after e g.
Proof. destruct e; simpl; [apply add_edge_idemp|done..]. Qed.

Lemma emit_twice e self : (emit e ;; emit e) self = emit e self.
Proof.
  unfold bind. rewrite emit_spec. rewrite emit_spec; simpl.
  rewrite vivified_after.
  by rewrite method_of_idemp, insert_insert_eq, call_graph_after_idemp.
Qed.

(** An event changes neither the argument lists nor the frame data nor
    the label nor the address of a record. *)
Lemma method_of_passive e fn :
  Function.arguments (method_of e fn) = Function.arguments fn
  ∧ Function.bp_on_stack (method_of e fn) = Function.bp_on_stack fn
  ∧ Function.retaddr_on_stack (method_of e fn) = Function.retaddr_on_stack fn
  ∧ Function.sp_difference (method_of e fn) = Function.sp_difference fn
  ∧ Function.name (method_of e fn) = Function.name fn
  ∧ Function.startpoint (method_of e fn) = Function.startpoint fn.
Proof. by destruct e. Qed.

End manager_contents.

(** ** Properties of the record *)

(** X1. On a new record, after any calls, the call-site dictionary holds
    for a call site what the last [add_call_site] for it gave, and nothing
    when there was none: [get_call_target] and [get_call_return] answer the
    target and the return address of that last call, or [None]. *)
Theorem X1_call_site_last_write (addr : Z) (nm : option string)
    (os : list Function.op) (a : Z) :
  Function._call_sites (Function.run os (Function.__init__ addr nm)) !! a
  = last_call_site a os
  ∧ Function.get_call_target a (Function.run os (Function.__init__ addr nm))
    = fst <$> last_call_site a os
  ∧ Function.get_call_return a (Function.run os (Function.__init__ addr nm))
    = snd <$> last_call_site a os.
Proof.
  unfold Function.get_call_target, Function.get_call_return.
  rewrite run_call_sites_last. by destruct (last_call_site a os).
Qed.

(** X2. On any record, [get_call_target] and [get_call_return] answer a
    value exactly for the call sites that [get_call_sites] lists, and
    [None] for every other address. *)
Theorem X2_call_site_lookup_defined (fn : Function.t) (a : Z) :
  (a ∈ Function.get_call_sites fn
   ∧ is_Some (Function.get_call_target a fn)
   ∧ is_Some (Function.get_call_return a fn))
  ∨ ((a ∉ Function.get_call_sites fn)
     ∧ Function.get_call_target a fn = None
     ∧ Function.get_call_return a fn = None).
Proof.
  unfold Function.get_call_sites, Function.get_call_target,
    Function.get_call_return.
  destruct (Function._call_sites fn !! a) as [site|] eqn:Ha.
  - left. split; [by apply elem_of_dom|]. by split.
  - right. split; [by apply not_elem_of_dom|]. by split.
Qed.

(** X3. On a new record, after any calls, an edge of the transition graph
    carries the [type] of the last [transit_to] or [return_from_call] that
    registered it, and the graph has the edge exactly when one did. *)
Theorem X3_edge_type_last_write (addr : Z) (nm : option string)
    (os : list Function.op) (u v : Z) :
  DiGraph.edge_data u v
    (Function.transition_graph (Function.run os (Function.__init__ addr nm)))
  = ((λ ty, {[ "type" := ty ]}) <$> last_edge_type u v os)
  ∧ DiGraph.has_edge u v
      (Function.transition_graph (Function.run os (Function.__init__ addr nm)))
    = bool_decide (is_Some (last_edge_type u v os)).
Proof.
  unfold Function.transition_graph.
  rewrite has_edge_edge_data, run_edge_type_last. split; [done|].
  apply bool_decide_ext. by rewrite fmap_is_Some.
Qed.

(** X4. On a new record, after any calls, the basic blocks are the
    addresses given to [add_block], [transit_to] and [return_from_call],
    and both ends of every edge of the transition graph are basic
    blocks. *)
Theorem X4_basic_blocks_contents (addr : Z) (nm : option string)
    (os : list Function.op) :
  Function.basic_blocks (Function.run os (Function.__init__ addr nm))
  = list_to_set (os ≫= op_blocks)
  ∧ ∀ u v,
      DiGraph.has_edge u v
        (Function.transition_graph (Function.run os (Function.__init__ addr nm)))
      = true →
      u ∈ Function.basic_blocks (Function.run os (Function.__init__ addr nm))
      ∧ v ∈ Function.basic_blocks (Function.run os (Function.__init__ addr nm)).
Proof.
  split; [apply run_basic_blocks|].
  intros u v Huv.
  destruct (run_fresh_graph_closed addr nm os) as [Hdom Hsucc].
  unfold Function.basic_blocks, DiGraph.nodes. rewrite Hdom. split.
  - by eapply has_edge_source.
  - by eapply Hsucc.
Qed.

(** X5. On a record reached from a new one, [add_block] of an address that
    is a basic block already changes nothing. *)
Theorem X5_add_block_present (addr : Z) (nm : option string)
    (os : list Function.op) (a : Z) :
  a ∈ Function.basic_blocks (Function.run os (Function.__init__ addr nm)) →
  Function.add_block a (Function.run os (Function.__init__ addr nm))
  = Function.run os (Function.__init__ addr nm).
Proof.
  intros Ha. unfold Function.add_block.
  rewrite add_node_present;
    [by destruct (Function.run os _)|apply run_fresh_graph_closed|done].
Qed.

Lemma X5_add_block_present_witness :
  Function.add_block 0x1010
    (Function.run [Function.TransitTo 0x1000 0x1010]
       (Function.__init__ 0x1000 None))
  = Function.run [Function.TransitTo 0x1000 0x1010]
      (Function.__init__ 0x1000 None).
Proof.
  apply (X5_add_block_present 0x1000 None [Function.TransitTo 0x1000 0x1010]).
  apply (bool_decide_unpack _). vm_compute. exact I.
Defined.

(** X6. [add_block] adds its address to the basic blocks of a record
    reached from a new one and leaves every edge, with its attributes, as
    it was. *)
Theorem X6_add_block_effect (addr : Z) (nm : option string)
    (os : list Function.op) (a x y : Z) :
  Function.basic_blocks
    (Function.add_block a (Function.run os (Function.__init__ addr nm)))
  = {[ a ]} ∪ Function.basic_blocks (Function.run os (Function.__init__ addr nm))
  ∧ DiGraph.edge_data x y
      (Function.transition_graph
         (Function.add_block a (Function.run os (Function.__init__ addr nm))))
    = DiGraph.edge_data x y
        (Function.transition_graph (Function.run os (Function.__init__ addr nm))).
Proof.
  unfold Function.basic_blocks, Function.transition_graph, Function.add_block.
  simpl. split.
  - apply nodes_add_node, run_fresh_graph_closed.
  - apply edge_data_add_node.
Qed.

(** X7. [endpoints] lists every return site once: it has no repeats, as
    many items as the set of return sites, and is empty exactly when
    [has_return] is false; on a new record, after any calls, it lists the
    addresses given to [add_return_site]. *)
Theorem X7_endpoints (fn : Function.t) (addr : Z) (nm : option string)
    (os : list Function.op) (x : Z) :
  NoDup (Function.endpoints fn)
  ∧ length (Function.endpoints fn) = size (Function._ret_sites fn)
  ∧ Function.has_return fn = bool_decide (Function.endpoints fn ≠ [])
  ∧ (x ∈ Function.endpoints (Function.run os (Function.__init__ addr nm))
     ↔ Function.AddReturnSite x ∈ os).
Proof.
  unfold Function.endpoints. split; [apply NoDup_elements|].
  split; [done|]. split.
  - rewrite has_return_nonempty. apply bool_decide_ext.
    split; intros Hne Heq; apply Hne.
    + apply elements_empty_inv in Heq. by apply leibniz_equiv.
    + rewrite Heq. apply elements_empty.
  - rewrite elem_of_elements. apply run_ret_sites_elem.
Qed.

(** X8. On a new record, after any calls, the list of argument registers
    is the list of the offsets given to [add_argument_register], in
    order, without the repeats of an offset after its first occurrence;
    the same holds for the stack variables. *)
Theorem X8_argument_lists_contents (addr : Z) (nm : option string)
    (os : list Function.op) :
  Function.arguments (Function.run os (Function.__init__ addr nm))
  = (first_occurrences (reg_offsets os), first_occurrences (stack_offsets os)).
Proof.
  unfold Function.arguments.
  by rewrite run_argument_registers, run_argument_stack_variables.
Qed.

(** ** Properties of the registry *)

Section manager_records.
Import FunctionManager.
Implicit Types (self : FunctionManager.t) (fn : Function.t)
  (e : FunctionManager.event) (es : list FunctionManager.event).

(** The calls that events stand for leave the passive data of a record. *)
Lemma run_routed_passive f es fn :
  Function.arguments (Function.run (routed f es) fn) = Function.arguments fn
  ∧ Function.bp_on_stack (Function.run (routed f es) fn) = Function.bp_on_stack fn
  ∧ Function.retaddr_on_stack (Function.run (routed f es) fn)
    = Function.retaddr_on_stack fn
  ∧ Function.sp_difference (Function.run (routed f es) fn)
    = Function.sp_difference fn
  ∧ Function.name (Function.run (routed f es) fn) = Function.name fn
  ∧ Function.startpoint (Function.run (routed f es) fn) = Function.startpoint fn.
Proof.
  induction es as [|e es IH] using rev_ind; [done|].
  rewrite routed_snoc. case_decide; [|done].
  rewrite run_snoc, apply_op_of.
  destruct (method_of_passive e (Function.run (routed f es) fn))
    as (-> & -> & -> & -> & -> & ->).
  done.
Qed.

Lemma run_routed_blocks f es fn :
  Function.basic_blocks fn ⊆ Function.basic_blocks (Function.run (routed f es) fn).
Proof.
  induction es as [|e es IH] using rev_ind; [done|].
  rewrite routed_snoc. case_decide; [|done].
  rewrite run_snoc, apply_op_of. etrans; [exact IH|apply method_of_blocks].
Qed.

(** A call-site registration among the routed calls comes from a [call_to]
    event. *)
Lemma routed_call_site f es a b r :
  Function.AddCallSite a b r ∈ routed f es → CallTo f a b r ∈ es.
Proof.
  unfold routed. intros (e & Hop & He)%list_elem_of_fmap.
  apply list_elem_of_filter in He as [Hf He].
  destruct e; simplify_eq/=. done.
Qed.

Lemma call_edges_elem u v es :
  (u, v) ∈ call_edges es ↔ ∃ a r, CallTo u a v r ∈ es.
Proof.
  unfold call_edges. rewrite list_elem_of_bind. split.
  - intros (e & Huv & He). destruct e; simpl in Huv;
      try (by apply elem_of_nil in Huv).
    apply list_elem_of_singleton in Huv. simplify_eq. eauto.
  - intros (a & r & He). exists (CallTo u a v r). split; [|done].
    by apply list_elem_of_singleton.
Qed.

End manager_records.

(** X9. From the empty registry, any events succeed, and the registry then
    holds a record exactly for the function addresses the events named:
    the record of a function is a new record, with its address as a
    block, on which the calls of the events naming that function ran in
    the order of the events. *)
Theorem X9_events_routed (es : list FunctionManager.event) :
  ∃ self,
    FunctionManager.emit_all es FunctionManager.__init__ = Some (tt, self)
    ∧ ∀ f, FunctionManager._function_map self !! f
           = if decide (f ∈ FunctionManager.function_addr_of <$> es)
             then Some (Function.run (Function.AddBlock f :: routed f es)
                          (Function.__init__ f None))
             else None.
Proof. apply emit_all_routed. Qed.

(** X10. From the empty registry, after any events, the call graph has the
    edge [u -> v] exactly when some event was [call_to(u, _, v, _)]; its
    nodes are the ends of these edges; and its edges carry no
    attribute. *)
Theorem X10_call_graph_contents (es : list FunctionManager.event) :
  ∃ self,
    FunctionManager.emit_all es FunctionManager.__init__ = Some (tt, self)
    ∧ (∀ u v,
         DiGraph.has_edge u v (FunctionManager.interfunction_graph self) = true
         ↔ ∃ a r, FunctionManager.CallTo u a v r ∈ es)
    ∧ DiGraph.nodes (FunctionManager.interfunction_graph self)
      = list_to_set (call_edges es ≫= λ uv, [uv.1; uv.2])
    ∧ (∀ u v,
         DiGraph.has_edge u v (FunctionManager.interfunction_graph self) = true →
         DiGraph.edge_data u v (FunctionManager.interfunction_graph self)
         = Some ∅).
Proof.
  destruct (emit_all_call_graph es) as (self & Hes & _ & Hedges & Hnodes & Hdata).
  exists self. split; [done|]. split; [|by split].
  intros u v. by rewrite Hedges, call_edges_elem.
Qed.

(** X11. From the empty registry, after any events, every record is stored
    under its own address, has that address among its basic blocks, has
    no label, and has empty argument lists and the frame data of a new
    record: events never set them. *)
Theorem X11_registry_records (es : list FunctionManager.event) :
  ∃ self,
    FunctionManager.emit_all es FunctionManager.__init__ = Some (tt, self)
    ∧ ∀ f fn,
        FunctionManager._function_map self !! f = Some fn →
        Function.startpoint fn = f
        ∧ f ∈ Function.basic_blocks fn
        ∧ Function.name fn = None
        ∧ Function.arguments fn = ([], [])
        ∧ Function.bp_on_stack fn = false
        ∧ Function.retaddr_on_stack fn = false
        ∧ Function.sp_difference fn = 0.
Proof.
  destruct (emit_all_routed es) as (self & Hes & Hmap).
  exists self. split; [done|]. intros f fn. rewrite Hmap.
  case_decide; [|done]. intros Hfn. injection Hfn as <-.
  change (Function.run (Function.AddBlock f :: routed f es)
            (Function.__init__ f None))
    with (Function.run (routed f es)
            (Function.add_block f (Function.__init__ f None))).
  destruct (run_routed_passive f es
              (Function.add_block f (Function.__init__ f None)))
    as (-> & -> & -> & -> & -> & ->).
  repeat split.
  apply run_routed_blocks, fresh_function_block.
Qed.

(** X12. From the empty registry, after any events, the call graph has an
    edge from a function to the target of each call site recorded for
    it, and every edge of the call graph leaves a function that has a
    record. *)
Theorem X12_call_sites_and_edges (es : list FunctionManager.event) :
  ∃ self,
    FunctionManager.emit_all es FunctionManager.__init__ = Some (tt, self)
    ∧ (∀ f fn a b r,
         FunctionManager._function_map self !! f = Some fn →
         Function._call_sites fn !! a = Some (b, r) →
         DiGraph.has_edge f b (FunctionManager.interfunction_graph self) = true)
    ∧ (∀ u v,
         DiGraph.has_edge u v (FunctionManager.interfunction_graph self) = true →
         is_Some (FunctionManager._function_map self !! u)).
Proof.
  destruct (emit_all_routed es) as (self & Hes & Hmap).
  destruct (emit_all_call_graph es) as (self' & Hes' & _ & Hedges & _).
  rewrite Hes in Hes'. simplify_eq.
  exists self'. split; [done|]. split.
  - intros f fn a b r. rewrite Hmap. case_decide; [|done].
    intros Hfn Hsite. injection Hfn as <-.
    apply (run_call_sites_origin f None (Function.AddBlock f :: routed f es))
      in Hsite.
    apply elem_of_cons in Hsite as [?|Hsite]; [done|].
    apply routed_call_site in Hsite.
    apply Hedges, call_edges_elem. eauto.
  - intros u v (a & r & He)%Hedges%call_edges_elem.
    rewrite Hmap, decide_True; [done|].
    apply list_elem_of_fmap. by exists (FunctionManager.CallTo u a v r).
Qed.

(** X13. On any registry, any events succeed: none raises.  Afterwards the
    registry has a record for every address it had one for and for every
    function address the events named, and for no other. *)
Theorem X13_events_total (self : FunctionManager.t)
    (es : list FunctionManager.event) :
  ∃ self',
    FunctionManager.emit_all es self = Some (tt, self')
    ∧ dom (FunctionManager._function_map self')
      = dom (FunctionManager._function_map self)
        ∪ list_to_set (FunctionManager.function_addr_of <$> es).
Proof. apply emit_all_total. Qed.

(** X14. Each of the four events is idempotent: on any registry, emitting
    an event twice gives the state that emitting it once gives. *)
Theorem X14_event_idempotent (self : FunctionManager.t)
    (e : FunctionManager.event) :
  FunctionManager.bind (FunctionManager.emit e) (λ _, FunctionManager.emit e)
    self
  = FunctionManager.emit e self.
Proof. apply emit_twice. Qed.

(** X15. An event changes no record but that of the function it names, and
    in no record does it change the argument lists, the frame data, the
    label or the address. *)
Theorem X15_event_frame (self : FunctionManager.t) (e : FunctionManager.event)
    (g : Z) (fn : Function.t) :
  FunctionManager._function_map self !! g = Some fn →
  ∃ self' fn',
    FunctionManager.emit e self = Some (tt, self')
    ∧ FunctionManager._function_map self' !! g = Some fn'
    ∧ (FunctionManager.function_addr_of e ≠ g → fn' = fn)
    ∧ Function.arguments fn' = Function.arguments fn
    ∧ Function.bp_on_stack fn' = Function.bp_on_stack fn
    ∧ Function.retaddr_on_stack fn' = Function.retaddr_on_stack fn
    ∧ Function.sp_difference fn' = Function.sp_difference fn
    ∧ Function.name fn' = Function.name fn
    ∧ Function.startpoint fn' = Function.startpoint fn.
Proof.
  intros Hg. rewrite emit_spec.
  destruct (decide (FunctionManager.function_addr_of e = g)) as [<-|Hne].
  - do 2 eexists. split; [done|]. simpl. rewrite lookup_insert_eq.
    split; [done|]. split; [done|].
    rewrite (vivified_known _ _ _ Hg). apply method_of_passive.
  - eexists. exists fn. split; [done|]. simpl.
    rewrite lookup_insert_ne by done. by repeat split.
Qed.

Lemma X15_event_frame_witness :
  ∃ self' fn',
    FunctionManager.emit (FunctionManager.CallTo 0x1000 0x1010 0x2000 0x1020)
      {| FunctionManager._function_map :=
           {[ 0x2000 := Function.add_argument_register 4
                          (Function.__init__ 0x2000 None) ]};
         FunctionManager.interfunction_graph := DiGraph.empty |}
    = Some (tt, self')
    ∧ FunctionManager._function_map self' !! 0x2000 = Some fn'
    ∧ Function.arguments fn' = ([4], []).
Proof.
  destruct (X15_event_frame
              {| FunctionManager._function_map :=
                   {[ 0x2000 := Function.add_argument_register 4
                                  (Function.__init__ 0x2000 None) ]};
                 FunctionManager.interfunction_graph := DiGraph.empty |}
              (FunctionManager.CallTo 0x1000 0x1010 0x2000 0x1020) 0x2000
              (Function.add_argument_register 4 (Function.__init__ 0x2000 None)))
    as (self' & fn' & Hemit & Hmap & _ & Hargs & _).
  - apply lookup_singleton_eq.
  - exists self', fn'. split; [exact Hemit|]. split; [exact Hmap|exact Hargs].
Defined.

(** ** Nothing is ever removed *)

Section accumulation.
Implicit Types (fn : Function.t) (o : Function.op) (os : list Function.op).

Lemma record_extends_refl fn : record_extends fn fn.
Proof. by repeat split. Qed.

Lemma record_extends_trans fn1 fn2 fn3 :
  record_extends fn1 fn2 → record_extends fn2 fn3 → record_extends fn1 fn3.
Proof.
  intros (Ha & Hb & He & Hr & Hc & Hx & Hy) (Ha' & Hb' & He' & Hr' & Hc' & Hx' & Hy').
  split; [congruence|]. split; [set_solver|]. split; [by auto|].
  split; [set_solver|]. split; [set_solver|]. split; by etrans.
Qed.

Lemma apply_extends o fn : record_extends fn (Function.apply o fn).
Proof.
  unfold record_extends, Function.startpoint, Function.basic_blocks,
    Function.transition_graph, Function.get_call_sites.
  rewrite apply_addr, apply_transition_graph, apply_ret_sites_eq,
    apply_call_sites_eq, apply_argument_registers,
    apply_argument_stack_variables.
  split; [done|]. split; [|split; [|split; [|split; [|split]]]].
  - destruct o; try done;
      first [apply add_edge_nodes_mono | apply add_node_nodes_mono].
  - intros u v Huv. destruct o; try done.
    + apply has_edge_add_edge. by right.
    + apply has_edge_add_edge. by right.
    + by rewrite has_edge_add_node.
  - destruct o; try done. set_solver.
  - destruct o; try done. apply dom_insert_subseteq.
  - destruct o; try done. case_decide; [done|]. by apply prefix_app_r.
  - destruct o; try done. case_decide; [done|]. by apply prefix_app_r.
Qed.

Lemma run_extends os fn : record_extends fn (Function.run os fn).
Proof.
  revert fn. induction os as [|o os IH]; intros fn;
    [apply record_extends_refl|].
  rewrite run_cons.
  eapply record_extends_trans; [apply apply_extends|apply IH].
Qed.

Lemma method_of_extends e fn : record_extends fn (method_of e fn).
Proof. rewrite <- apply_op_of. apply apply_extends. Qed.

Lemma call_graph_after_has_edge e g u v :
  DiGraph.has_edge u v g = true →
  DiGraph.has_edge u v (call_graph_after e g) = true.
Proof.
  intros Huv. destruct e; simpl; try done.
  apply has_edge_add_edge. by right.
Qed.

Lemma emit_extends e self f fn :
  FunctionManager._function_map self !! f = Some fn →
  ∃ self' fn',
    FunctionManager.emit e self = Some (tt, self')
    ∧ FunctionManager._function_map self' !! f = Some fn'
    ∧ record_extends fn fn'
    ∧ (∀ u v,
         DiGraph.has_edge u v (FunctionManager.interfunction_graph self) = true →
         DiGraph.has_edge u v (FunctionManager.interfunction_graph self') = true).
Proof.
  intros Hf. rewrite emit_spec.
  destruct (decide (FunctionManager.function_addr_of e = f)) as [<-|Hne].
  - do 2 eexists. split; [done|]. simpl. rewrite lookup_insert_eq.
    split; [done|]. rewrite (vivified_known _ _ _ Hf).
    split; [apply method_of_extends|]. intros u v.
    apply call_graph_after_has_edge.
  - eexists. exists fn. split; [done|]. simpl.
    rewrite lookup_insert_ne by done. split; [done|].
    split; [apply record_extends_refl|]. intros u v.
    apply call_graph_after_has_edge.
Qed.

Lemma emit_all_extends es self f fn :
  FunctionManager._function_map self !! f = Some fn →
  ∃ self' fn',
    FunctionManager.emit_all es self = Some (tt, self')
    ∧ FunctionManager._function_map self' !! f = Some fn'
    ∧ record_extends fn fn'
    ∧ (∀ u v,
         DiGraph.has_edge u v (FunctionManager.interfunction_graph self) = true →
         DiGraph.has_edge u v (FunctionManager.interfunction_graph self') = true).
Proof.
  revert self fn. induction es as [|e es IH]; intros self fn Hf.
  { exists self, fn. split; [done|]. split; [done|].
    split; [apply record_extends_refl|done]. }
  destruct (emit_extends e self f fn Hf) as (self1 & fn1 & He & Hf1 & Hext & Hg).
  destruct (IH self1 fn1 Hf1) as (self2 & fn2 & Hes & Hf2 & Hext2 & Hg2).
  exists self2, fn2. simpl. unfold FunctionManager.bind. rewrite He.
  split; [done|]. split; [done|].
  split; [by eapply record_extends_trans|]. by auto.
Qed.

End accumulation.

(** X16. No method of a record removes anything: after any calls the
    record has the same address, all the basic blocks, edges, return
    sites and call sites it had, and argument lists that start with the
    ones it had. *)
Theorem X16_record_accumulates (fn : Function.t) (os : list Function.op) :
  record_extends fn (Function.run os fn).
Proof. apply run_extends. Qed.

(** X17. No event removes anything: after any events a function that had
    a record has one that holds all the old one held, and the call graph
    has every edge it had. *)
Theorem X17_registry_accumulates (self : FunctionManager.t)
    (es : list FunctionManager.event) (f : Z) (fn : Function.t) :
  FunctionManager._function_map self !! f = Some fn →
  ∃ self' fn',
    FunctionManager.emit_all es self = Some (tt, self')
    ∧ FunctionManager._function_map self' !! f = Some fn'
    ∧ record_extends fn fn'
    ∧ (∀ u v,
         DiGraph.has_edge u v (FunctionManager.interfunction_graph self) = true →
         DiGraph.has_edge u v (FunctionManager.interfunction_graph self') = true).
Proof. apply emit_all_extends. Qed.

Lemma X17_registry_accumulates_witness :
  ∃ self' fn',
    FunctionManager.emit_all
      [FunctionManager.TransitTo 0x1000 0x1000 0x1010;
       FunctionManager.ReturnFrom 0x1000 0x1010 None]
      {| FunctionManager._function_map :=
           {[ 0x1000 := Function.add_return_site 0x1020
                          (Function.__init__ 0x1000 None) ]};
         FunctionManager.interfunction_graph := DiGraph.empty |}
    = Some (tt, self')
    ∧ FunctionManager._function_map self' !! 0x1000 = Some fn'
    ∧ record_extends
        (Function.add_return_site 0x1020 (Function.__init__ 0x1000 None)) fn'.
Proof.
  destruct (X17_registry_accumulates
              {| FunctionManager._function_map :=
                   {[ 0x1000 := Function.add_return_site 0x1020
                                  (Function.__init__ 0x1000 None) ]};
                 FunctionManager.interfunction_graph := DiGraph.empty |}
              [FunctionManager.TransitTo 0x1000 0x1000 0x1010;
               FunctionManager.ReturnFrom 0x1000 0x1010 None]
              0x1000
              (Function.add_return_site 0x1020 (Function.__init__ 0x1000 None)))
    as (self' & fn' & Hes & Hmap & Hext & _).
  - apply lookup_singleton_eq.
  - exists self', fn'. split; [exact Hes|]. split; [exact Hmap|exact Hext].
Defined.

(** ** Events that name different functions *)

Section commutation.
Implicit Types (g : DiGraph.t) (u v k n : Z) (attr : gmap string string).

Lemma add_node_node_lookup n k g :
  DiGraph.node (DiGraph.add_node n g) !! k
  = if decide (k = n ∧ DiGraph.adj g !! n = None) then Some ∅
    else DiGraph.node g !! k.
Proof.
  unfold DiGraph.add_node.
  destruct (DiGraph.adj g !! n) as [nbrs|] eqn:Hn; simpl.
  - rewrite decide_False; [done|]. by intros [_ ?].
  - case_decide as Hk.
    + destruct Hk as [-> _]. by rewrite lookup_insert_eq.
    + rewrite lookup_insert_ne; [done|]. intros ->. by apply Hk.
Qed.

Lemma add_edge_node_lookup u v attr k g :
  DiGraph.node (DiGraph.add_edge u v attr g) !! k
  = if decide ((k = u ∨ k = v) ∧ DiGraph.adj g !! k = None) then Some ∅
    else DiGraph.node g !! k.
Proof.
  unfold DiGraph.add_edge; simpl.
  rewrite !add_node_node_lookup, add_node_adj_lookup.
  destruct (DiGraph.adj g !! k) as [nbrs|] eqn:Hk.
  - rewrite (decide_False (P := (_ ∨ _) ∧ _)) by (by intros [_ ?]).
    rewrite decide_False.
    + rewrite decide_False; [done|]. intros [-> ?]. congruence.
    + intros [-> Hv]. rewrite Hk in Hv. done.
  - destruct (decide (k = v)) as [->|Hkv].
    + rewrite Hk. rewrite (decide_True (P := (_ ∨ _) ∧ _)) by auto.
      destruct (decide (u = v)) as [->|Huv].
      * rewrite decide_False by (by intros [_ ?]).
        by rewrite decide_True.
      * by rewrite decide_True.
    + rewrite decide_False by (by intros [? _]).
      apply decide_ext. naive_solver.
Qed.

Lemma add_edge_adj_lookup u v attr k g :
  DiGraph.adj (DiGraph.add_edge u v attr g) !! k
  = if decide (k = u)
    then Some (<[v := attr ∪ default ∅ (DiGraph.edge_data u v g)]>
                 (default ∅ (DiGraph.adj g !! u)))
    else match DiGraph.adj g !! k with
         | Some nbrs => Some nbrs
         | None => if decide (v = k) then Some ∅ else None
         end.
Proof.
  unfold DiGraph.add_edge; simpl. case_decide as Hk.
  - subst k. rewrite lookup_insert_eq, !add_node_nbrs.
    by rewrite edge_data_nbrs.
  - rewrite lookup_insert_ne by done. rewrite !add_node_adj_lookup.
    destruct (DiGraph.adj g !! k); [done|].
    rewrite (decide_False (P := u = k)) by done. done.
Qed.

Lemma graph_eq g1 g2 :
  DiGraph.node g1 = DiGraph.node g2 → DiGraph.adj g1 = DiGraph.adj g2 →
  g1 = g2.
Proof. destruct g1, g2; simpl. by intros -> ->. Qed.

(** Two edges that leave different nodes can be added in either order. *)
Lemma add_edge_comm u v u' v' attr attr' g :
  u ≠ u' →
  DiGraph.add_edge u v attr (DiGraph.add_edge u' v' attr' g)
  = DiGraph.add_edge u' v' attr' (DiGraph.add_edge u v attr g).
Proof.
  intros Hne. apply graph_eq; apply map_eq; intros k.
  - rewrite !add_edge_node_lookup, !add_edge_adj_lookup.
    destruct (DiGraph.adj g !! k) as [nbrs|] eqn:Hk.
    + repeat case_decide; naive_solver.
    + repeat case_decide; naive_solver.
  - rewrite !add_edge_adj_lookup, !edge_data_add_edge.
    rewrite (decide_False (P := u = u' ∧ _)) by (by intros [? _]).
    rewrite (decide_False (P := u' = u ∧ _)) by (by intros [? _]).
    rewrite (decide_False (P := u = u')) by done.
    rewrite (decide_False (P := u' = u)) by done.
    destruct (decide (k = u)) as [->|Hku].
    + rewrite (decide_False (P := u = u')) by done.
      destruct (DiGraph.adj g !! u); [done|]. by case_decide.
    + destruct (decide (k = u')) as [->|Hku'].
      * destruct (DiGraph.adj g !! u'); [done|]. by case_decide.
      * destruct (DiGraph.adj g !! k); [done|].
        repeat case_decide; naive_solver.
Qed.

Lemma call_graph_after_comm e1 e2 g :
  FunctionManager.function_addr_of e1 ≠ FunctionManager.function_addr_of e2 →
  call_graph_after e2 (call_graph_after e1 g)
  = call_graph_after e1 (call_graph_after e2 g).
Proof.
  intros Hne. destruct e1, e2; simpl in *; try done.
  by apply add_edge_comm.
Qed.

Lemma emit_comm e1 e2 self :
  FunctionManager.function_addr_of e1 ≠ FunctionManager.function_addr_of e2 →
  FunctionManager.bind (FunctionManager.emit e1) (λ _, FunctionManager.emit e2)
    self
  = FunctionManager.bind (FunctionManager.emit e2) (λ _, FunctionManager.emit e1)
      self.
Proof.
  intros Hne. unfold FunctionManager.bind. rewrite !emit_spec; simpl.
  rewrite ?emit_spec; simpl. unfold vivified; simpl.
  rewrite !lookup_insert_ne by done.
  rewrite (insert_insert_ne _ (FunctionManager.function_addr_of e1)) by done.
  by rewrite call_graph_after_comm.
Qed.

End commutation.

(** X18. Two events that name different functions can be emitted in
    either order: on any registry both orders give the same state. *)
Theorem X18_events_commute (self : FunctionManager.t)
    (e1 e2 : FunctionManager.event) :
  FunctionManager.function_addr_of e1 ≠ FunctionManager.function_addr_of e2 →
  FunctionManager.bind (FunctionManager.emit e1) (λ _, FunctionManager.emit e2)
    self
  = FunctionManager.bind (FunctionManager.emit e2) (λ _, FunctionManager.emit e1)
      self.
Proof. apply emit_comm. Qed.

Lemma X18_events_commute_witness :
  FunctionManager.bind
    (FunctionManager.emit (FunctionManager.CallTo 0x1000 0x1010 0x2000 0x1020))
    (λ _, FunctionManager.emit (FunctionManager.CallTo 0x2000 0x2010 0x1000 0x2020))
    FunctionManager.__init__
  = FunctionManager.bind
      (FunctionManager.emit (FunctionManager.CallTo 0x2000 0x2010 0x1000 0x2020))
      (λ _, FunctionManager.emit (FunctionManager.CallTo 0x1000 0x1010 0x2000 0x1020))
      FunctionManager.__init__.
Proof.
  apply (X18_events_commute FunctionManager.__init__
           (FunctionManager.CallTo 0x1000 0x1010 0x2000 0x1020)
           (FunctionManager.CallTo 0x2000 0x2010 0x1000 0x2020)).
  simpl. lia.
Defined.

(** ** The reverse index *)

Lemma apply_reverse_index_eq (o : Function.op) (fn : Function.t) :
  Function._retn_addr_to_call_site (Function.apply o fn)
  = match o with
    | Function.AddCallSite a _ r =>
        <[r := a]> (Function._retn_addr_to_call_site fn)
    | _ => Function._retn_addr_to_call_site fn
    end.
Proof.
  destruct o; simpl; try done;
    unfold Function.add_argument_register,
      Function.add_argument_stack_variable; by case_decide.
Qed.

Lemma run_reverse_index_last (addr : Z) (nm : option string)
    (os : list Function.op) (r : Z) :
  Function._retn_addr_to_call_site
    (Function.run os (Function.__init__ addr nm)) !! r
  = last_site_returning r os.
Proof.
  induction os as [|o os IH] using rev_ind; [cbn; by rewrite lookup_empty|].
  rewrite run_snoc, apply_reverse_index_eq.
  unfold last_site_returning. rewrite foldl_snoc.
  fold (last_site_returning r os).
  destruct o; try done. case_decide as Hrr.
  - subst. by rewrite lookup_insert_eq.
  - by rewrite lookup_insert_ne.
Qed.

(** X19. On a new record, after any calls, the reverse index holds for a
    return address the call site of the last [add_call_site] that gave
    this return address, and nothing when there was none. *)
Theorem X19_reverse_index_last_write (addr : Z) (nm : option string)
    (os : list Function.op) (r : Z) :
  Function._retn_addr_to_call_site
    (Function.run os (Function.__init__ addr nm)) !! r
  = last_site_returning r os.
Proof. apply run_reverse_index_last. Qed.
